(** * Resilience primitives of the production-agents code examples

    A shallow embedding of five modules under
    [code-examples/chapter-02-reliability/complete/]:

    - [circuit_breaker.py]        (module [circuit_breaker])
    - [circuit_breaker_redis.py]  (module [circuit_breaker_redis])
    - [retry.py]                  (module [retry])
    - [rate_limiter.py]           (module [rate_limiter])
    - [tools.py]                  (module [tools]: the dispatcher)

    Python floats (timestamps, delays, token counts) are modelled as exact
    rationals [Q]; Python integers as [Z].  Three places where binary64
    shows through are modelled as the interpreter behaves: [x ** n] raises
    [OverflowError] when the power does not fit, [time.sleep] raises
    [OverflowError] for a length outside its range, and the jitter factor
    [0.5 + random.random() * 0.5] is rounded to the nearest binary64 number,
    which makes it 1.0 for the largest draw.  The wall clock [time.time()] and
    the generator [random.random()] are read from an environment of streams,
    one reading per call.  Locks are no-ops (a single sequential caller) and
    logging has no effect on control flow, so neither is represented.
    Exception classes are identified by their names.  Ghost events record
    the calls of wrapped functions and the sleeps, so that they can be
    counted. *)

From Stdlib Require Import QArith Qabs Qround Qminmax Qpower Lqa ZArith Lia List Bool String.
From stdpp Require Import base gmap strings.
Import ListNotations.

Local Open Scope Q_scope.

(** ** The Python runtime the modules rely on *)

Module Py.

(** An exception class is known by its name and the names of its proper
    ancestors (its method resolution order without itself). *)
Record ExcClass := mkClass { cls_name : string; cls_bases : list string }.

(** An exception value: its class, its message and, where the message
    interpolates a number, that number. *)
Record Exc := mkExc { exc_class : ExcClass; exc_msg : string; exc_num : option Q }.

Definition issubclass (c d : ExcClass) : bool :=
  String.eqb (cls_name c) (cls_name d)
  || existsb (String.eqb (cls_name d)) (cls_bases c).

Definition isinstance (e : Exc) (d : ExcClass) : bool :=
  issubclass (exc_class e) d.

(** [isinstance(e, (c1, ..., cn))] *)
Definition isinstance_any (e : Exc) (ds : list ExcClass) : bool :=
  existsb (isinstance e) ds.

Definition BaseException : ExcClass := mkClass "BaseException" [].
Definition Exception : ExcClass := mkClass "Exception" ["BaseException"%string].
Definition TypeError : ExcClass :=
  mkClass "TypeError" ["Exception"; "BaseException"]%string.
Definition ValueError : ExcClass :=
  mkClass "ValueError" ["Exception"; "BaseException"]%string.
Definition ZeroDivisionError : ExcClass :=
  mkClass "ZeroDivisionError" ["ArithmeticError"; "Exception"; "BaseException"]%string.
Definition OverflowError : ExcClass :=
  mkClass "OverflowError" ["ArithmeticError"; "Exception"; "BaseException"]%string.

(** Ghost events, recorded where the source calls a wrapped function or
    sleeps.  They let the theorems count invocations and sleeps. *)
Inductive Caller := ByRetry | ByBreaker.

Inductive Event :=
| Called (c : Caller)             (* [func(...)] entered *)
| Returned (c : Caller)           (* ... and returned *)
| Raised (c : Caller) (e : Exc)   (* ... and raised [e] *)
| Slept (d : Q).                  (* [time.sleep(d)] completed *)

(** How many readings of the clock and of the random generator were taken. *)
Record World := mkWorld { ticks : nat; draws : nat }.

(** The streams of readings. *)
Record Env := mkEnv { clock : nat -> Q; uniform : nat -> Q }.

Record State (O : Type) := mkState { obj : O; world : World; trace : list Event }.
Arguments mkState {O} _ _ _.
Arguments obj {O} _.
Arguments world {O} _.
Arguments trace {O} _.

Inductive Res (A : Type) :=
| Val (a : A)
| Exn (e : Exc).
Arguments Val {A} _.
Arguments Exn {A} _.

(** Computations over an object of type [O]: a result or an exception,
    and the state left behind in either case. *)
Definition M (O A : Type) : Type := State O -> Res A * State O.

Definition ret {O A} (a : A) : M O A := fun s => (Val a, s).

Definition raise {O A} (e : Exc) : M O A := fun s => (Exn e, s).

Definition bind {O A B} (m : M O A) (k : A -> M O B) : M O B :=
  fun s =>
    match m s with
    | (Val a, s') => k a s'
    | (Exn e, s') => (Exn e, s')
    end.

(** [try: body  except <clauses>], the clauses given as a partial function
    of the object at the time of the exception (the class expressions of
    the clauses are evaluated then) and of the exception: the first clause
    that matches [e] handles it, outside the [try]. *)
Definition try_except {O A} (body : M O A) (clauses : O -> Exc -> option (M O A)) : M O A :=
  fun s =>
    match body s with
    | (Val a, s') => (Val a, s')
    | (Exn e, s') =>
        match clauses (obj s') e with
        | Some handler => handler s'
        | None => (Exn e, s')
        end
    end.

Definition get_obj {O} : M O O := fun s => (Val (obj s), s).

Definition put_obj {O} (o : O) : M O unit :=
  fun s => (Val tt, mkState o (world s) (trace s)).

Definition emit {O} (ev : Event) : M O unit :=
  fun s => (Val tt, mkState (obj s) (world s) (ev :: trace s)).

(** A wrapped function supplied by the caller: it may take time and use
    randomness, and returns or raises. *)
Definition Callee (T : Type) : Type := World -> Res T * World.

Definition run_callee {O T} (f : Callee T) : M O T :=
  fun s =>
    let (r, w) := f (world s) in (r, mkState (obj s) w (trace s)).

(** The call site [func(...)], with its ghost events. *)
Definition invoke {O T} (c : Caller) (f : M O T) : M O T :=
  fun s =>
    match f (mkState (obj s) (world s) (Called c :: trace s)) with
    | (Val v, s') => (Val v, mkState (obj s') (world s') (Returned c :: trace s'))
    | (Exn e, s') => (Exn e, mkState (obj s') (world s') (Raised c e :: trace s'))
    end.

Definition Qge_bool (x y : Q) : bool := Qle_bool y x.

Section WithEnv.
Variable env : Env.

(** [time.time()] *)
Definition time_time {O} : M O Q :=
  fun s =>
    (Val (clock env (ticks (world s))),
     mkState (obj s) (mkWorld (S (ticks (world s))) (draws (world s))) (trace s)).

(** [random.random()] *)
Definition random_random {O} : M O Q :=
  fun s =>
    (Val (uniform env (draws (world s))),
     mkState (obj s) (mkWorld (ticks (world s)) (S (draws (world s)))) (trace s)).

End WithEnv.

(** The magnitude from which a binary64 result is an infinity: numbers of
    at least [2^1024 - 2^970] round to one. *)
Definition float_overflow : Q := inject_Z (2 ^ 1024 - 2 ^ 970).

(** [x ** n] for a float [x] and an int [n >= 0]: a power too large for a
    float is an [OverflowError]. *)
Definition float_pow {O} (x : Q) (n : nat) : M O Q :=
  let p := x ^ Z.of_nat n in
  if Qge_bool (Qabs p) float_overflow then
    raise (mkExc OverflowError "(34, 'Numerical result out of range')" None)
  else ret p.

(** The nearest integer, ties to the even one. *)
Definition round_half_even (x : Q) : Z :=
  let n := Qfloor x in
  match Qcompare (x - inject_Z n) (1 # 2) with
  | Lt => n
  | Gt => (n + 1)%Z
  | Eq => if Z.even n then n else (n + 1)%Z
  end.

(** Binary64 rounding of a number between 1/2 and 1, where the binary64
    numbers are the multiples of [2^-53]. *)
Definition nearest53 (x : Q) : Q :=
  inject_Z (round_half_even (x * inject_Z (2 ^ 53))) / inject_Z (2 ^ 53).

(** The longest sleep: [2^63] nanoseconds, in seconds. *)
Definition sleep_limit : Q := inject_Z (2 ^ 63) / inject_Z (10 ^ 9).

(** [time.sleep(d)]: the length is converted to nanoseconds first, an
    [OverflowError] when it is out of range; then a negative length is a
    [ValueError]. *)
Definition time_sleep {O} (d : Q) : M O unit :=
  if Qle_bool (Qabs d) sleep_limit then
    if Qge_bool d 0 then emit (Slept d)
    else raise (mkExc ValueError "sleep length must be non-negative" None)
  else raise (mkExc OverflowError "timestamp too large to convert to C _PyTime_t" None).

End Py.

Import Py.

Declare Scope py_scope.
Delimit Scope py_scope with py.
Notation "x <- m ;; k" := (bind m (fun x => k))
  (at level 100, m at next level, right associativity) : py_scope.
Notation "m ;;; k" := (bind m (fun _ => k))
  (at level 100, right associativity) : py_scope.
Local Open Scope py_scope.

(** ** circuit_breaker.py *)

Module circuit_breaker.

Inductive CircuitState := CLOSED | OPEN | HALF_OPEN.

Definition CircuitState_eqb (a b : CircuitState) : bool :=
  match a, b with
  | CLOSED, CLOSED | OPEN, OPEN | HALF_OPEN, HALF_OPEN => true
  | _, _ => false
  end.

Definition CircuitBreakerError : ExcClass :=
  mkClass "CircuitBreakerError" ["Exception"; "BaseException"]%string.

Record CircuitBreaker := mkBreaker {
  name : string;
  failure_threshold : Z;
  recovery_timeout : Q;
  success_threshold : Z;
  expected_exception : ExcClass;
  failure_count : Z;
  success_count : Z;
  last_failure_time : option Q;
  state : CircuitState
}.

(** [CircuitBreaker.__init__] *)
Definition init (name : string) (failure_threshold : Z) (recovery_timeout : Q)
    (success_threshold : Z) (expected_exception : ExcClass) : CircuitBreaker :=
  mkBreaker name failure_threshold recovery_timeout success_threshold
    expected_exception 0%Z 0%Z None CLOSED.

Definition set_state (v : CircuitState) (b : CircuitBreaker) : CircuitBreaker :=
  mkBreaker (name b) (failure_threshold b) (recovery_timeout b) (success_threshold b)
    (expected_exception b) (failure_count b) (success_count b) (last_failure_time b) v.

Definition set_failure_count (v : Z) (b : CircuitBreaker) : CircuitBreaker :=
  mkBreaker (name b) (failure_threshold b) (recovery_timeout b) (success_threshold b)
    (expected_exception b) v (success_count b) (last_failure_time b) (state b).

Definition set_success_count (v : Z) (b : CircuitBreaker) : CircuitBreaker :=
  mkBreaker (name b) (failure_threshold b) (recovery_timeout b) (success_threshold b)
    (expected_exception b) (failure_count b) v (last_failure_time b) (state b).

Definition set_last_failure_time (v : option Q) (b : CircuitBreaker) : CircuitBreaker :=
  mkBreaker (name b) (failure_threshold b) (recovery_timeout b) (success_threshold b)
    (expected_exception b) (failure_count b) (success_count b) v (state b).

(** The error raised while the circuit is open; [remaining] is the
    [time_remaining] its message reports. *)
Definition open_error (nm : string) (remaining : Q) : Exc :=
  mkExc CircuitBreakerError ("Circuit breaker '" ++ nm ++ "' is OPEN. Retry in ")
    (Some remaining).

(** [time.time() - self.last_failure_time]: a [TypeError] on [None]. *)
Definition since {O} (now : Q) (last : option Q) : M O Q :=
  match last with
  | Some t => ret (now - t)
  | None =>
      raise (mkExc TypeError "unsupported operand type(s) for -: 'float' and 'NoneType'" None)
  end.

Section WithEnv.
Variable env : Env.

(** Lines 101-119: check the state and decide whether to proceed. *)
Definition check : M CircuitBreaker unit :=
  self <- get_obj ;;
  if CircuitState_eqb (state self) OPEN then
    now <- time_time env ;;
    elapsed <- since now (last_failure_time self) ;;
    if Qge_bool elapsed (recovery_timeout self) then
      put_obj (set_success_count 0 (set_state HALF_OPEN self))
    else
      now' <- time_time env ;;
      elapsed' <- since now' (last_failure_time self) ;;
      raise (open_error (name self) (recovery_timeout self - elapsed'))
  else ret tt.

(** Lines 125-139: bookkeeping after a successful call. *)
Definition on_success : M CircuitBreaker unit :=
  self <- get_obj ;;
  if CircuitState_eqb (state self) HALF_OPEN then
    let self1 := set_success_count (success_count self + 1) self in
    if (success_count self1 >=? success_threshold self1)%Z then
      put_obj (set_state CLOSED (set_failure_count 0 self1))
    else put_obj self1
  else put_obj (set_failure_count 0 self).

(** Lines 143-164: bookkeeping after a failure, then re-raise. *)
Definition on_failure {T} (e : Exc) : M CircuitBreaker T :=
  self <- get_obj ;;
  let self1 := set_failure_count (failure_count self + 1) self in
  now <- time_time env ;;
  let self2 := set_success_count 0 (set_last_failure_time (Some now) self1) in
  (if (failure_count self2 >=? failure_threshold self2)%Z then
     put_obj (set_state OPEN self2)
   else put_obj self2) ;;;
  raise e.

(** [CircuitBreaker.call] *)
Definition call {T} (func : Callee T) : M CircuitBreaker T :=
  check ;;;
  try_except
    (result <- invoke ByBreaker (run_callee func) ;;
     on_success ;;;
     ret result)
    (fun self e =>
       if isinstance e (expected_exception self) then Some (on_failure e)
       else None).

End WithEnv.

(** [CircuitBreaker.reset] *)
Definition reset : M CircuitBreaker unit :=
  self <- get_obj ;;
  put_obj (set_success_count 0 (set_failure_count 0 (set_state CLOSED self))).

End circuit_breaker.

(** ** circuit_breaker_redis.py *)

Module circuit_breaker_redis.

Inductive CircuitState := CLOSED | OPEN | HALF_OPEN.

Definition CircuitState_eqb (a b : CircuitState) : bool :=
  match a, b with
  | CLOSED, CLOSED | OPEN, OPEN | HALF_OPEN, HALF_OPEN => true
  | _, _ => false
  end.

(** [CircuitState.<member>.value] *)
Definition value (s : CircuitState) : string :=
  match s with
  | CLOSED => "closed"
  | OPEN => "open"
  | HALF_OPEN => "half_open"
  end.

(** [CircuitState(v)]: the member with that value, if any. *)
Definition of_value (v : string) : option CircuitState :=
  if String.eqb v "closed" then Some CLOSED
  else if String.eqb v "open" then Some OPEN
  else if String.eqb v "half_open" then Some HALF_OPEN
  else None.

(** This module defines a class of its own with the same name. *)
Definition CircuitBreakerError : ExcClass :=
  mkClass "CircuitBreakerError" ["Exception"; "BaseException"]%string.

(** *** The store

    The Redis server is an external collaborator.  It is modelled as a
    reliable key-value map whose values are the plain scalars the breaker
    writes: the enum's string, integers and float timestamps.  The client
    returns what was written ([repr] and parsing of numbers round-trip). *)

Inductive RVal :=
| RStr (s : string)
| RInt (z : Z)
| RFloat (q : Q).

Definition ResponseError : ExcClass :=
  mkClass "ResponseError" ["RedisError"; "Exception"; "BaseException"]%string.

Definition redis_exists (k : string) : M (gmap string RVal) bool :=
  db <- get_obj ;;
  ret (match db !! k with Some _ => true | None => false end).

Definition redis_get (k : string) : M (gmap string RVal) (option RVal) :=
  db <- get_obj ;;
  ret (db !! k).

Definition redis_set (k : string) (v : RVal) : M (gmap string RVal) unit :=
  db <- get_obj ;;
  put_obj (<[k := v]> db).

(** [INCR]: a missing key counts as 0; a value that is not an integer is
    an error. *)
Definition redis_incr (k : string) : M (gmap string RVal) Z :=
  db <- get_obj ;;
  match db !! k with
  | None => put_obj (<[k := RInt 1]> db) ;;; ret 1%Z
  | Some (RInt z) => put_obj (<[k := RInt (z + 1)]> db) ;;; ret (z + 1)%Z
  | Some _ => raise (mkExc ResponseError "value is not an integer or out of range" None)
  end.

(** Truth value of the bytes the client returns: empty bytes are falsy. *)
Definition bytes_truthy (v : RVal) : bool :=
  match v with
  | RStr s => negb (String.eqb s "")
  | RInt _ | RFloat _ => true
  end.

(** Truth value of a float: zero is falsy. *)
Definition float_truthy (q : Q) : bool := negb (Qeq_bool q 0).

Record RedisCircuitBreaker := mkRedisBreaker {
  name : string;
  failure_threshold : Z;
  recovery_timeout : Q;
  success_threshold : Z;
  expected_exception : ExcClass;
  key_prefix : string;
  state_key : string;
  failures_key : string;
  last_failure_key : string;
  successes_key : string
}.

(** [RedisCircuitBreaker.__init__] (with the [redis] package installed). *)
Definition init (name : string) (failure_threshold : Z) (recovery_timeout : Q)
    (success_threshold : Z) (expected_exception : ExcClass) (key_prefix : string)
  : M (gmap string RVal) RedisCircuitBreaker :=
  let prefix := (key_prefix ++ ":" ++ name)%string in
  let self :=
    mkRedisBreaker name failure_threshold recovery_timeout success_threshold
      expected_exception prefix
      (prefix ++ ":state") (prefix ++ ":failures")
      (prefix ++ ":last_failure") (prefix ++ ":successes") in
  present <- redis_exists (state_key self) ;;
  (if negb present then
     redis_set (state_key self) (RStr (value CLOSED)) ;;;
     redis_set (failures_key self) (RInt 0) ;;;
     redis_set (successes_key self) (RInt 0)
   else ret tt) ;;;
  ret self.

Section Methods.
Variable self : RedisCircuitBreaker.

Definition _get_state : M (gmap string RVal) CircuitState :=
  state_value <- redis_get (state_key self) ;;
  match state_value with
  | None => ret CLOSED
  | Some (RStr s) =>
      match of_value s with
      | Some st => ret st
      | None => raise (mkExc ValueError "is not a valid CircuitState" None)
      end
  | Some _ => raise (mkExc ValueError "is not a valid CircuitState" None)
  end.

Definition _set_state (st : CircuitState) : M (gmap string RVal) unit :=
  redis_set (state_key self) (RStr (value st)).

Definition _incr_failures : M (gmap string RVal) Z := redis_incr (failures_key self).

Definition _reset_failures : M (gmap string RVal) unit :=
  redis_set (failures_key self) (RInt 0).

Definition _incr_successes : M (gmap string RVal) Z := redis_incr (successes_key self).

Definition _reset_successes : M (gmap string RVal) unit :=
  redis_set (successes_key self) (RInt 0).

(** [float(timestamp) if timestamp else None] *)
Definition _get_last_failure_time : M (gmap string RVal) (option Q) :=
  timestamp <- redis_get (last_failure_key self) ;;
  match timestamp with
  | None => ret None
  | Some v =>
      if bytes_truthy v then
        match v with
        | RFloat q => ret (Some q)
        | RInt z => ret (Some (inject_Z z))
        | RStr _ => raise (mkExc ValueError "could not convert string to float" None)
        end
      else ret None
  end.

Definition _set_last_failure_time (timestamp : Q) : M (gmap string RVal) unit :=
  redis_set (last_failure_key self) (RFloat timestamp).

Definition open_error (remaining : Q) : Exc :=
  mkExc CircuitBreakerError ("Circuit breaker '" ++ name self ++ "' is OPEN. Retry in ")
    (Some remaining).

Section WithEnv.
Variable env : Env.

(** Lines 170-187.  [last_failure and (...)] reads the clock only when
    [last_failure] is truthy, and so does the conditional expression that
    computes [time_remaining]. *)
Definition check : M (gmap string RVal) unit :=
  st <- _get_state ;;
  if CircuitState_eqb st OPEN then
    last_failure <- _get_last_failure_time ;;
    recovered <-
      match last_failure with
      | Some t =>
          if float_truthy t then
            now <- time_time env ;;
            ret (Qge_bool (now - t) (recovery_timeout self))
          else ret false
      | None => ret false
      end ;;
    if recovered : bool then
      _set_state HALF_OPEN ;;;
      _reset_successes
    else
      time_remaining <-
        match last_failure with
        | Some t =>
            if float_truthy t then
              now' <- time_time env ;;
              ret (recovery_timeout self - (now' - t))
            else ret 0
        | None => ret 0
        end ;;
      raise (open_error time_remaining)
  else ret tt.

(** Lines 193-206. *)
Definition on_success : M (gmap string RVal) unit :=
  st <- _get_state ;;
  if CircuitState_eqb st HALF_OPEN then
    successes <- _incr_successes ;;
    if (successes >=? success_threshold self)%Z then
      _set_state CLOSED ;;;
      _reset_failures
    else ret tt
  else _reset_failures.

(** Lines 210-228. *)
Definition on_failure {T} (e : Exc) : M (gmap string RVal) T :=
  failures <- _incr_failures ;;
  now <- time_time env ;;
  _set_last_failure_time now ;;;
  _reset_successes ;;;
  (if (failures >=? failure_threshold self)%Z then _set_state OPEN else ret tt) ;;;
  raise e.

(** [RedisCircuitBreaker.call] *)
Definition call {T} (func : Callee T) : M (gmap string RVal) T :=
  check ;;;
  try_except
    (result <- invoke ByBreaker (run_callee func) ;;
     on_success ;;;
     ret result)
    (fun _ e =>
       if isinstance e (expected_exception self) then Some (on_failure e)
       else None).

End WithEnv.

(** [RedisCircuitBreaker.reset] *)
Definition reset : M (gmap string RVal) unit :=
  _set_state CLOSED ;;;
  _reset_failures ;;;
  _reset_successes.

(** [int(count) if count else 0] *)
Definition int_or_zero (count : option RVal) : M (gmap string RVal) Z :=
  match count with
  | None => ret 0%Z
  | Some v =>
      if bytes_truthy v then
        match v with
        | RInt z => ret z
        | RFloat _ | RStr _ =>
            raise (mkExc ValueError "invalid literal for int() with base 10" None)
        end
      else ret 0%Z
  end.

Definition _get_failures : M (gmap string RVal) Z :=
  count <- redis_get (failures_key self) ;;
  int_or_zero count.

Definition _get_successes : M (gmap string RVal) Z :=
  count <- redis_get (successes_key self) ;;
  int_or_zero count.

(** The dictionary that [get_stats] returns. *)
Record Stats := mkStats {
  stats_name : string;
  stats_state : string;
  stats_failures : Z;
  stats_successes : Z;
  stats_last_failure : option Q
}.

(** [RedisCircuitBreaker.get_stats] *)
Definition get_stats : M (gmap string RVal) Stats :=
  st <- _get_state ;;
  failures <- _get_failures ;;
  successes <- _get_successes ;;
  last_failure <- _get_last_failure_time ;;
  ret (mkStats (name self) (value st) failures successes last_failure).

End Methods.

End circuit_breaker_redis.

(** ** retry.py *)

Module retry.

(** The arguments of [retry_with_backoff]. *)
Record Config := mkConfig {
  max_retries : Z;
  initial_delay : Q;
  max_delay : Q;
  exponential_base : Q;
  jitter : bool;
  retryable_exceptions : list ExcClass
}.

(** The defaults of lines 23-30. *)
Definition defaults : Config := mkConfig 3 1 60 2 true [Exception].

(** Lines 76-79: the delay before jitter. *)
Definition backoff {O} (cfg : Config) (attempt : nat) : M O Q :=
  power <- float_pow (exponential_base cfg) attempt ;;
  ret (Qmin (initial_delay cfg * power) (max_delay cfg)).

(** [raise last_exception]: raising [None] is a [TypeError]. *)
Definition raise_last {O T} (last_exception : option Exc) : M O T :=
  match last_exception with
  | Some e => raise e
  | None => raise (mkExc TypeError "exceptions must derive from BaseException" None)
  end.

Section WithEnv.
Variable env : Env.
Variable cfg : Config.

(** Lines 82-83.  The draw is below 1, so the factor is a sum between 1/2
    and 1, rounded there. *)
Definition jittered {O} (delay : Q) : M O Q :=
  if jitter cfg then
    r <- random_random env ;;
    ret (delay * nearest53 ((1 # 2) + r * (1 # 2)))
  else ret delay.

(** Lines 75-97: compute the delay, jitter it, sleep. *)
Definition pause {O} (attempt : nat) : M O unit :=
  delay <- backoff cfg attempt ;;
  delay <- jittered delay ;;
  time_sleep delay.

(** The [for attempt in range(max_retries + 1)] loop of lines 55-110 and
    the [raise last_exception] after it; [remaining] counts the iterations
    still to run. *)
Fixpoint attempts {O T} (func : M O T) (remaining attempt : nat)
    (last_exception : option Exc) : M O T :=
  match remaining with
  | O => raise_last last_exception
  | S remaining' =>
      try_except (invoke ByRetry func)
        (fun _ e =>
           if isinstance_any e (retryable_exceptions cfg) then
             Some (if (Z.of_nat attempt =? max_retries cfg)%Z then
                     raise_last (Some e)
                   else
                     pause attempt ;;;
                     attempts func remaining' (S attempt) (Some e))
           else if isinstance e Exception then Some (raise e)
           else None)
  end.

(** [retry_with_backoff(...)(func)]: the wrapper of lines 52-113. *)
Definition wrapper {O T} (func : M O T) : M O T :=
  attempts func (Z.to_nat (max_retries cfg + 1)) 0 None.

End WithEnv.

End retry.

(** ** rate_limiter.py *)

Module rate_limiter.

Record TokenBucket := mkBucket {
  rate : Q;
  capacity : Q;
  tokens : Q;
  last_update : Q
}.

(** Truth value of a float: zero is falsy. *)
Definition float_truthy (q : Q) : bool := negb (Qeq_bool q 0).

(** [capacity or rate] *)
Definition capacity_or_rate (capacity : option Q) (rate : Q) : Q :=
  match capacity with
  | Some c => if float_truthy c then c else rate
  | None => rate
  end.

Definition set_tokens (v : Q) (b : TokenBucket) : TokenBucket :=
  mkBucket (rate b) (capacity b) v (last_update b).

Definition set_last_update (v : Q) (b : TokenBucket) : TokenBucket :=
  mkBucket (rate b) (capacity b) (tokens b) v.

Definition ZeroDivision : Exc := mkExc ZeroDivisionError "float division by zero" None.

Definition RateLimitExceeded : ExcClass :=
  mkClass "RateLimitExceeded" ["Exception"; "BaseException"]%string.

Section WithEnv.
Variable env : Env.

(** [TokenBucket.__init__]: the new bucket is the value returned. *)
Definition init {O} (rate : Q) (capacity initial_tokens : option Q) : M O TokenBucket :=
  let cap := capacity_or_rate capacity rate in
  let toks := match initial_tokens with Some t => t | None => cap end in
  now <- time_time env ;;
  ret (mkBucket rate cap toks now).

(** [TokenBucket._refill] *)
Definition _refill : M TokenBucket unit :=
  now <- time_time env ;;
  self <- get_obj ;;
  let elapsed := now - last_update self in
  let new_tokens := elapsed * rate self in
  put_obj (set_last_update now
             (set_tokens (Qmin (capacity self) (tokens self + new_tokens)) self)).

(** One pass through the body of [while True] (lines 86-139); [None]
    means that the loop goes round again. *)
Definition consume_pass (n : Q) (block : bool) (timeout : option Q) (start_time : Q)
  : M TokenBucket (option bool) :=
  _refill ;;;
  self <- get_obj ;;
  if Qge_bool (tokens self) n then
    put_obj (set_tokens (tokens self - n) self) ;;;
    ret (Some true)
  else if negb block then ret (Some false)
  else
    timed_out <-
      match timeout with
      | Some t =>
          now <- time_time env ;;
          ret (Qge_bool (now - start_time) t)
      | None => ret false
      end ;;
    if timed_out : bool then ret (Some false)
    else
      self <- get_obj ;;
      (if Qeq_bool (rate self) 0 then raise ZeroDivision else ret tt) ;;;
      let wait_time := Qmin ((n - tokens self) / rate self) (1 # 10) in
      time_sleep wait_time ;;;
      ret None.

(** The [while True] loop, run for at most [fuel] passes; [None] means
    that the loop has not returned within them. *)
Fixpoint consume_loop (fuel : nat) (n : Q) (block : bool) (timeout : option Q)
    (start_time : Q) : M TokenBucket (option bool) :=
  match fuel with
  | O => ret None
  | S fuel' =>
      r <- consume_pass n block timeout start_time ;;
      match r with
      | Some b => ret (Some b)
      | None => consume_loop fuel' n block timeout start_time
      end
  end.

(** [TokenBucket.consume] *)
Definition consume (fuel : nat) (n : Q) (block : bool) (timeout : option Q)
  : M TokenBucket (option bool) :=
  start_time <- time_time env ;;
  consume_loop fuel n block timeout start_time.

(** [TokenBucket.get_available_tokens] *)
Definition get_available_tokens : M TokenBucket Q :=
  _refill ;;;
  self <- get_obj ;;
  ret (tokens self).

(** [RateLimiter]: its bucket is the object of the computations below; the
    record holds the two settings that [__init__] stores next to it. *)
Record RateLimiter := mkLimiter {
  block : bool;
  timeout : option Q
}.

(** The error of [RateLimiter.__call__]; its message names the wrapped
    function and reports the rate. *)
Definition rate_limit_error (func_name : string) (max_rate : Q) : Exc :=
  mkExc RateLimitExceeded
    ("Rate limit exceeded for " ++ func_name ++ ". Max rate: ") (Some max_rate).

(** [RateLimiter.__init__]: the bucket it builds, with the settings. *)
Definition limiter_init {O} (rate : Q) (capacity : option Q) (block : bool)
    (timeout : option Q) : M O (TokenBucket * RateLimiter) :=
  bucket <- init rate capacity None ;;
  ret (bucket, mkLimiter block timeout).

(** The wrapper that [RateLimiter.__call__] returns, which is also what
    [rate_limit(...)] decorates with: one token is consumed before the
    function, known to the wrapper by its [__name__] too, is called.
    [None] means that [consume] has not returned within [fuel] passes. *)
Definition limited {T} (self : RateLimiter) (fuel : nat) (func_name : string)
    (func : Callee T) : M TokenBucket (option T) :=
  granted <- consume fuel 1 (block self) (timeout self) ;;
  match granted with
  | None => ret None
  | Some false =>
      bucket <- get_obj ;;
      raise (rate_limit_error func_name (rate bucket))
  | Some true =>
      result <- run_callee func ;;
      ret (Some result)
  end.

End WithEnv.

End rate_limiter.

(** ** tools.py: the dispatcher and its two guarded tools *)

Module tools.

Import circuit_breaker.

Inductive Criticality := Critical | Optional.

(** [TOOL_CRITICALITY.get(tool_name, "critical")] *)
Definition criticality (tool_name : string) : Criticality :=
  if String.eqb tool_name "calculator" then Critical
  else if String.eqb tool_name "save_note" then Critical
  else if String.eqb tool_name "web_search" then Optional
  else if String.eqb tool_name "get_weather" then Optional
  else Critical.

(** The two breakers that the [@circuit_breaker] decorators create when the
    module is loaded. *)
Record Breakers := mkBreakers {
  web_search_breaker : CircuitBreaker;
  weather_breaker : CircuitBreaker
}.

Definition loaded : Breakers :=
  mkBreakers (init "web_search" 5 60 3 Exception) (init "weather" 5 60 3 Exception).

(** A computation on one of the breakers, run on the pair. *)
Definition on_web_search {A} (m : M CircuitBreaker A) : M Breakers A :=
  fun s =>
    let (r, s') := m (mkState (web_search_breaker (obj s)) (world s) (trace s)) in
    (r, mkState (mkBreakers (obj s') (weather_breaker (obj s))) (world s') (trace s')).

Definition on_weather {A} (m : M CircuitBreaker A) : M Breakers A :=
  fun s =>
    let (r, s') := m (mkState (weather_breaker (obj s)) (world s) (trace s)) in
    (r, mkState (mkBreakers (web_search_breaker (obj s)) (obj s')) (world s') (trace s')).

Section WithEnv.
Variable env : Env.

(** [str(e)], as the messages interpolate it. *)
Variable str : Exc -> string.

(** The bodies of the four tools, applied to the tool input: what they
    return or raise is up to them (two are mocks, one evaluates an
    expression, one writes a file). *)
Variable web_search_body calculator_body save_note_body get_weather_body : Callee string.

Definition unknown_tool (tool_name : string) : Exc :=
  mkExc Exception ("Unknown tool: " ++ tool_name) None.

Definition breaker_open_message (tool_name : string) (e : Exc) : string :=
  "[Tool '" ++ tool_name
  ++ "' is temporarily unavailable - circuit breaker is open. The service is recovering from failures. "
  ++ str e ++ "]".

Definition unavailable_message (tool_name : string) (e : Exc) : string :=
  "[Tool '" ++ tool_name ++ "' is temporarily unavailable. Reason: " ++ str e ++ "]".

(** The [if]/[elif] chain inside the [try]. *)
Definition dispatch (tool_name : string) : M Breakers string :=
  if String.eqb tool_name "web_search" then on_web_search (call env web_search_body)
  else if String.eqb tool_name "calculator" then run_callee calculator_body
  else if String.eqb tool_name "save_note" then run_callee save_note_body
  else if String.eqb tool_name "get_weather" then on_weather (call env get_weather_body)
  else raise (unknown_tool tool_name).

(** [execute_tool] *)
Definition execute_tool (tool_name : string) : M Breakers string :=
  try_except (dispatch tool_name)
    (fun _ e =>
       if isinstance e CircuitBreakerError then
         Some (match criticality tool_name with
               | Critical => raise e
               | Optional => ret (breaker_open_message tool_name e)
               end)
       else if isinstance e Exception then
         Some (match criticality tool_name with
               | Critical => raise e
               | Optional => ret (unavailable_message tool_name e)
               end)
       else None).

End WithEnv.

End tools.

(** * Properties *)

(** ** Common tactics and facts *)

Ltac unfold_py :=
  unfold bind, ret, raise, try_except, get_obj, put_obj, emit, invoke,
    run_callee, time_time, random_random, time_sleep in *.

Lemma Qge_bool_true (x y : Q) : Qge_bool x y = true <-> y <= x.
Proof. unfold Qge_bool. apply Qle_bool_iff. Qed.

Lemma Qge_bool_false (x y : Q) : Qge_bool x y = false <-> x < y.
Proof.
  unfold Qge_bool. split; intros H.
  - apply Qnot_le_lt. intros Hle. apply Qle_bool_iff in Hle. congruence.
  - destruct (Qle_bool y x) eqn:E; [|reflexivity].
    apply Qle_bool_iff in E. lra.
Qed.

Lemma Zgeb_true (a b : Z) : (a >=? b)%Z = true <-> (b <= a)%Z.
Proof. rewrite Z.geb_leb. apply Z.leb_le. Qed.

Lemma Zgeb_false (a b : Z) : (a >=? b)%Z = false <-> (a < b)%Z.
Proof. rewrite Z.geb_leb. apply Z.leb_gt. Qed.

(** A sleep of at most a tenth of a second is within the range of
    [time.sleep]. *)
Lemma short_sleep_in_range (d : Q) :
  0 <= d -> d <= 1 # 10 -> Qle_bool (Qabs d) sleep_limit = true.
Proof.
  intros H0 H1. apply Qle_bool_iff. rewrite Qabs_pos by exact H0.
  assert (Hl : 1 # 10 <= sleep_limit) by (vm_compute; discriminate).
  lra.
Qed.

(** ** The in-memory circuit breaker *)

Section BreakerFacts.
Import circuit_breaker.
Variable env : Env.

(** The breaker after a failure observed at clock reading [now]. *)
Definition failed (now : Q) (b : CircuitBreaker) : CircuitBreaker :=
  let b' :=
    set_success_count 0
      (set_last_failure_time (Some now) (set_failure_count (failure_count b + 1) b)) in
  if (failure_count b' >=? failure_threshold b')%Z then set_state OPEN b' else b'.

(** The breaker after a success. *)
Definition succeeded (b : CircuitBreaker) : CircuitBreaker :=
  match state b with
  | HALF_OPEN =>
      let b' := set_success_count (success_count b + 1) b in
      if (success_count b' >=? success_threshold b')%Z
      then set_state CLOSED (set_failure_count 0 b') else b'
  | _ => set_failure_count 0 b
  end.

(** The breaker admitted to a trial. *)
Definition admitted (b : CircuitBreaker) : CircuitBreaker :=
  set_success_count 0 (set_state HALF_OPEN b).

Definition tick (w : World) : World := mkWorld (S (ticks w)) (draws w).

(** What the wrapped function does in a given world. *)
Definition raises_in {T} (f : Callee T) (w : World) (e : Exc) (w' : World) : Prop :=
  f w = (Exn e, w').

Definition returns_in {T} (f : Callee T) (w : World) (v : T) (w' : World) : Prop :=
  f w = (Val v, w').

Lemma check_not_open (s : State CircuitBreaker) :
  state (obj s) <> OPEN -> check env s = (Val tt, s).
Proof.
  intros H. unfold check. unfold_py.
  destruct (state (obj s)); simpl; congruence.
Qed.

Lemma check_open_rejects (s : State CircuitBreaker) (t : Q) :
  state (obj s) = OPEN ->
  last_failure_time (obj s) = Some t ->
  clock env (ticks (world s)) - t < recovery_timeout (obj s) ->
  check env s =
    (Exn (open_error (name (obj s))
            (recovery_timeout (obj s) - (clock env (S (ticks (world s))) - t))),
     mkState (obj s) (tick (tick (world s))) (trace s)).
Proof.
  intros Hst Hl Hlt. unfold check, since. unfold_py. simpl.
  rewrite Hst, Hl. simpl.
  apply Qge_bool_false in Hlt. rewrite Hlt. reflexivity.
Qed.

Lemma check_open_admits (s : State CircuitBreaker) (t : Q) :
  state (obj s) = OPEN ->
  last_failure_time (obj s) = Some t ->
  recovery_timeout (obj s) <= clock env (ticks (world s)) - t ->
  check env s = (Val tt, mkState (admitted (obj s)) (tick (world s)) (trace s)).
Proof.
  intros Hst Hl Hle. unfold check, since. unfold_py. simpl.
  rewrite Hst, Hl. simpl.
  apply Qge_bool_true in Hle. rewrite Hle. reflexivity.
Qed.

(** [call] once the check has let the call through, in state [s1]. *)
Definition guarded {T} (func : Callee T) : M CircuitBreaker T :=
  try_except
    (result <- invoke ByBreaker (run_callee func) ;;
     on_success ;;;
     ret result)
    (fun self e =>
       if isinstance e (expected_exception self) then Some (on_failure env e)
       else None).

Lemma call_unfold {T} (func : Callee T) (s : State CircuitBreaker) :
  call env func s =
    match check env s with
    | (Val _, s1) => guarded func s1
    | (Exn e, s1) => (Exn e, s1)
    end.
Proof. reflexivity. Qed.

Lemma guarded_failure {T} (func : Callee T) (s : State CircuitBreaker) e w' :
  raises_in func (world s) e w' ->
  isinstance e (expected_exception (obj s)) = true ->
  guarded func s =
    (Exn e, mkState (failed (clock env (ticks w')) (obj s)) (tick w')
              (Raised ByBreaker e :: Called ByBreaker :: trace s)).
Proof.
  intros Hf Hi. unfold guarded, on_failure, raises_in in *. unfold_py. simpl.
  rewrite Hf. simpl. rewrite Hi. simpl.
  unfold failed. simpl.
  destruct (failure_count (obj s) + 1 >=? failure_threshold (obj s))%Z; reflexivity.
Qed.

Lemma guarded_other {T} (func : Callee T) (s : State CircuitBreaker) e w' :
  raises_in func (world s) e w' ->
  isinstance e (expected_exception (obj s)) = false ->
  guarded func s =
    (Exn e, mkState (obj s) w' (Raised ByBreaker e :: Called ByBreaker :: trace s)).
Proof.
  intros Hf Hi. unfold guarded, raises_in in *. unfold_py. simpl.
  rewrite Hf. simpl. rewrite Hi. reflexivity.
Qed.

Lemma guarded_success {T} (func : Callee T) (s : State CircuitBreaker) v w' :
  returns_in func (world s) v w' ->
  guarded func s =
    (Val v, mkState (succeeded (obj s)) w'
              (Returned ByBreaker :: Called ByBreaker :: trace s)).
Proof.
  intros Hf. unfold guarded, on_success, returns_in in *. unfold_py. simpl.
  rewrite Hf. simpl. unfold succeeded.
  destruct (state (obj s)); simpl; try reflexivity.
  destruct (success_count (obj s) + 1 >=? success_threshold (obj s))%Z; reflexivity.
Qed.

End BreakerFacts.

Section ThresholdTrip.
Import circuit_breaker.
Variable env : Env.

(** A wrapped function that raises an exception of class [cls], whatever
    the world it is called in. *)
Definition raises_expected {T} (cls : ExcClass) (f : Callee T) : Prop :=
  forall w, exists e w', f w = (Exn e, w') /\ isinstance e cls = true.

(** Calls made one after the other by a caller that catches what each
    raises. *)
Fixpoint call_all {T} (fs : list (Callee T)) (s : State CircuitBreaker)
  : State CircuitBreaker :=
  match fs with
  | [] => s
  | f :: fs' => call_all fs' (snd (call env f s))
  end.

Definition same_config (a b : CircuitBreaker) : Prop :=
  name a = name b /\ failure_threshold a = failure_threshold b /\
  recovery_timeout a = recovery_timeout b /\
  success_threshold a = success_threshold b /\
  expected_exception a = expected_exception b.

Lemma failed_config now b : same_config b (failed now b).
Proof.
  unfold same_config, failed. simpl.
  destruct (failure_count b + 1 >=? failure_threshold b)%Z; simpl; auto.
Qed.

Lemma closed_failures_trip {T} (fs : list (Callee T)) :
  forall s : State CircuitBreaker,
    fs <> [] ->
    state (obj s) = CLOSED ->
    (failure_count (obj s) + Z.of_nat (length fs) = failure_threshold (obj s))%Z ->
    Forall (raises_expected (expected_exception (obj s))) fs ->
    let s' := call_all fs s in
    state (obj s') = OPEN /\ same_config (obj s) (obj s') /\
    exists t, last_failure_time (obj s') = Some t.
Proof.
  induction fs as [|f fs IH]; intros s Hne Hst Hlen Hall; [congruence|].
  inversion Hall as [|? ? Hf Hrest]; subst.
  destruct (Hf (world s)) as (e & w' & Hrun & Hinst).
  simpl. rewrite call_unfold, check_not_open by congruence.
  rewrite (guarded_failure env f s e w' Hrun Hinst). simpl.
  pose proof (failed_config (clock env (ticks w')) (obj s)) as Hcfg.
  destruct fs as [|f' fs'].
  - simpl in *. unfold failed. simpl.
    replace (failure_count (obj s) + 1 >=? failure_threshold (obj s))%Z with true
      by (symmetry; apply Zgeb_true; lia).
    simpl. repeat split; eauto.
  - set (s1 := mkState (failed (clock env (ticks w')) (obj s)) (tick w')
                 (Raised ByBreaker e :: Called ByBreaker :: trace s)).
    assert (Hs1 : obj s1 = set_success_count 0
               (set_last_failure_time (Some (clock env (ticks w')))
                  (set_failure_count (failure_count (obj s) + 1) (obj s)))).
    { subst s1. simpl. unfold failed. simpl.
      replace (failure_count (obj s) + 1 >=? failure_threshold (obj s))%Z with false;
        [reflexivity|].
      symmetry. apply Zgeb_false. simpl length in Hlen. lia. }
    destruct (IH s1) as (Ho & Hc & Ht).
    + discriminate.
    + rewrite Hs1. simpl. exact Hst.
    + rewrite Hs1. simpl. simpl length in Hlen. simpl length. lia.
    + rewrite Hs1. simpl. exact Hrest.
    + split; [exact Ho|]. split; [|exact Ht].
      change (obj s1) with (failed (clock env (ticks w')) (obj s)) in Hc.
      destruct Hcfg as (? & ? & ? & ? & ?), Hc as (? & ? & ? & ? & ?).
      repeat split; etransitivity; eassumption.
Qed.


End ThresholdTrip.

(** Breakers that can arise from the constructor through calls and manual
    resets, in any environment and world. *)
Inductive reachable : circuit_breaker.CircuitBreaker -> Prop :=
| reach_init nm ft rt st ee :
    reachable (circuit_breaker.init nm ft rt st ee)
| reach_call env T (f : Callee T) b w tr :
    reachable b ->
    reachable (obj (snd (circuit_breaker.call env f (mkState b w tr))))
| reach_reset b w tr :
    reachable b ->
    reachable (obj (snd (circuit_breaker.reset (mkState b w tr)))).

Section Reachability.
Import circuit_breaker.


Lemma check_obj env (s : State CircuitBreaker) :
  obj (snd (check env s)) = obj s \/
  (state (obj s) = OPEN /\ fst (check env s) = Val tt /\
   obj (snd (check env s)) = admitted (obj s)).
Proof.
  unfold check, since. unfold_py. simpl.
  destruct (state (obj s)) eqn:Hst; simpl; auto.
  destruct (last_failure_time (obj s)); simpl; auto.
  destruct (Qge_bool _ _); simpl; auto.
Qed.


Lemma guarded_obj env {T} (f : Callee T) (s : State CircuitBreaker) :
  obj (snd (guarded env f s)) = obj s \/
  obj (snd (guarded env f s)) = succeeded (obj s) \/
  exists now, obj (snd (guarded env f s)) = failed now (obj s).
Proof.
  destruct (f (world s)) as [[v|e] w'] eqn:Hf.
  - rewrite (guarded_success env f s v w' Hf). auto.
  - destruct (isinstance e (expected_exception (obj s))) eqn:Hi.
    + rewrite (guarded_failure env f s e w' Hf Hi). simpl. eauto.
    + rewrite (guarded_other env f s e w' Hf Hi). auto.
Qed.







(** C8, as amended.  When the wrapped function is invoked and raises an
    exception that is not an instance of [expected_exception], [call]
    propagates it and leaves [failure_count], [last_failure_time] and the
    configuration as they were.  A breaker found CLOSED or HALF_OPEN is left
    wholly unchanged; a breaker found OPEN (its recovery timeout elapsed, or
    the function would not have been invoked) is left HALF_OPEN with
    [success_count = 0], the transition made before the invocation. *)
Theorem C8_unexpected_exception_frame env {T} (f : Callee T)
    (s : State CircuitBreaker) (e : Exc) :
  trace (snd (call env f s)) = Raised ByBreaker e :: Called ByBreaker :: trace s ->
  isinstance e (expected_exception (obj s)) = false ->
  let b' := obj (snd (call env f s)) in
  fst (call env f s) = Exn e /\
  failure_count b' = failure_count (obj s) /\
  last_failure_time b' = last_failure_time (obj s) /\
  (state (obj s) <> OPEN -> b' = obj s) /\
  (state (obj s) = OPEN -> b' = admitted (obj s)).
Proof.
  intros Htr Hi b'. subst b'. revert Htr. rewrite call_unfold.
  destruct (check env s) as [[[]|e0] s1] eqn:Hc.
  - assert (Hs1 : trace s1 = trace s /\
                  expected_exception (obj s1) = expected_exception (obj s) /\
                  failure_count (obj s1) = failure_count (obj s) /\
                  last_failure_time (obj s1) = last_failure_time (obj s) /\
                  (state (obj s) <> OPEN -> obj s1 = obj s) /\
                  (state (obj s) = OPEN -> obj s1 = admitted (obj s))).
    { revert Hc. unfold check, since. unfold_py. simpl.
      destruct (state (obj s)) eqn:Hst; simpl.
      - intros [= <-]. repeat split; congruence.
      - destruct (last_failure_time (obj s)) eqn:Hl; simpl; [|discriminate].
        destruct (Qge_bool _ _); simpl; [|discriminate].
        intros [= <-]. simpl. repeat split; congruence.
      - intros [= <-]. repeat split; congruence. }
    destruct Hs1 as (Htr1 & Hee & Hfc & Hlf & Hno & Hop).
    destruct (f (world s1)) as [[v|e1] w'] eqn:Hf.
    + rewrite (guarded_success env f s1 v w' Hf). simpl. rewrite Htr1.
      intros [=].
    + destruct (isinstance e1 (expected_exception (obj s1))) eqn:Hi1.
      * rewrite (guarded_failure env f s1 e1 w' Hf Hi1). simpl. rewrite Htr1.
        intros [= ->]. congruence.
      * rewrite (guarded_other env f s1 e1 w' Hf Hi1). simpl. rewrite Htr1.
        intros [= ->]. repeat split; auto.
  - simpl. intros Htr. exfalso.
    assert (Hlen : length (trace s1) = length (trace s)).
    { revert Hc. unfold check, since. unfold_py. simpl.
      destruct (state (obj s)); simpl; try discriminate.
      destruct (last_failure_time (obj s)); simpl; [|intros [= _ <-]; reflexivity].
      destruct (Qge_bool _ _); simpl; [discriminate|].
      intros [= _ <-]. reflexivity. }
    rewrite Htr in Hlen. simpl in Hlen. lia.
Qed.

End Reachability.

(** ** The retry wrapper *)

(** [random.random()] returns a number in the half-open unit interval. *)
Definition unit_interval (env : Env) : Prop :=
  forall i, 0 <= uniform env i /\ uniform env i < 1.

Fixpoint count_calls (c : Caller) (tr : list Event) : nat :=
  match tr with
  | [] => 0
  | Called ByRetry :: tr' =>
      (match c with ByRetry => 1 | ByBreaker => 0 end + count_calls c tr')%nat
  | Called ByBreaker :: tr' =>
      (match c with ByRetry => 0 | ByBreaker => 1 end + count_calls c tr')%nat
  | _ :: tr' => count_calls c tr'
  end.

Fixpoint count_sleeps (tr : list Event) : nat :=
  match tr with
  | [] => 0
  | Slept _ :: tr' => S (count_sleeps tr')
  | _ :: tr' => count_sleeps tr'
  end.

(** The lengths slept, the latest first. *)
Fixpoint sleeps (tr : list Event) : list Q :=
  match tr with
  | [] => []
  | Slept d :: tr' => d :: sleeps tr'
  | _ :: tr' => sleeps tr'
  end.

Lemma round_half_even_ge (a : Z) (x : Q) :
  inject_Z a <= x -> (a <= round_half_even x)%Z.
Proof.
  intros Ha. unfold round_half_even.
  assert (Hn : (a <= Qfloor x)%Z).
  { rewrite <- (Qfloor_Z a). apply Qfloor_resp_le. exact Ha. }
  destruct (Qcompare _ _); [destruct (Z.even _)| |]; lia.
Qed.

Lemma round_half_even_le (b : Z) (x : Q) :
  x <= inject_Z b -> (round_half_even x <= b)%Z.
Proof.
  intros Hb. unfold round_half_even.
  pose proof (Qfloor_le x) as Hfl.
  destruct (Qcompare_spec (x - inject_Z (Qfloor x)) (1 # 2)) as [He|Hl|Hg].
  - assert (Hlt : (Qfloor x < b)%Z) by (rewrite Zlt_Qlt; lra).
    destruct (Z.even _); lia.
  - rewrite Zle_Qle. lra.
  - assert (Hlt : (Qfloor x < b)%Z) by (rewrite Zlt_Qlt; lra).
    lia.
Qed.

(** Rounded in its binade, a number between 1/2 and 1 stays there. *)
Lemma nearest53_range (x : Q) :
  1 # 2 <= x -> x <= 1 -> 1 # 2 <= nearest53 x /\ nearest53 x <= 1.
Proof.
  intros Hl Hh. unfold nearest53.
  assert (Hp : 0 < inject_Z (2 ^ 53)) by reflexivity.
  assert (Hhalf : inject_Z (2 ^ 52) == (1 # 2) * inject_Z (2 ^ 53)) by reflexivity.
  pose proof (round_half_even_ge (2 ^ 52) (x * inject_Z (2 ^ 53))) as Hge.
  pose proof (round_half_even_le (2 ^ 53) (x * inject_Z (2 ^ 53))) as Hle.
  set (P := inject_Z (2 ^ 53)) in *.
  set (r := round_half_even (x * P)) in *.
  assert (H1 : (2 ^ 52 <= r)%Z) by (apply Hge; rewrite Hhalf; nra).
  assert (H2 : (r <= 2 ^ 53)%Z) by (apply Hle; nra).
  rewrite Zle_Qle in H1, H2. fold P in H2.
  split.
  - apply Qle_shift_div_l; [exact Hp|]. rewrite <- Hhalf. exact H1.
  - apply Qle_shift_div_r; [exact Hp|]. lra.
Qed.

Section RetryFacts.
Import retry.
Variable env : Env.
Variable cfg : Config.

(** The jitter factor drawn in a given world. *)
Definition jitter_factor (w : World) : Q :=
  nearest53 ((1 # 2) + uniform env (draws w) * (1 # 2)).

Lemma jitter_factor_range w :
  unit_interval env -> 1 # 2 <= jitter_factor w /\ jitter_factor w <= 1.
Proof.
  intros Hu. destruct (Hu (draws w)) as [H0 H1]. unfold jitter_factor.
  apply nearest53_range; lra.
Qed.

(** The power of attempt [i] fits in a float. *)
Definition power_fits (attempt : nat) : Prop :=
  Qabs (exponential_base cfg ^ Z.of_nat attempt) < float_overflow.

Lemma power_fits_zero : power_fits 0.
Proof. unfold power_fits. cbn [Z.of_nat Qpower]. reflexivity. Qed.

(** The delay before jitter that [backoff] computes when the power fits. *)
Definition backoff_value (attempt : nat) : Q :=
  Qmin (initial_delay cfg * exponential_base cfg ^ Z.of_nat attempt) (max_delay cfg).

Lemma backoff_fits {O} (attempt : nat) (s : State O) :
  power_fits attempt -> backoff cfg attempt s = (Val (backoff_value attempt), s).
Proof.
  intros Hp. unfold backoff, float_pow, backoff_value. cbv zeta.
  apply Qge_bool_false in Hp. unfold bind at 1. rewrite Hp. reflexivity.
Qed.

Lemma backoff_overflows {O} (attempt : nat) (s : State O) :
  float_overflow <= Qabs (exponential_base cfg ^ Z.of_nat attempt) ->
  exists e, backoff cfg attempt s = (Exn e, s) /\ exc_class e = OverflowError.
Proof.
  intros Hp. unfold backoff, float_pow. cbv zeta.
  apply Qge_bool_true in Hp. unfold bind at 1. rewrite Hp.
  eexists. split; reflexivity.
Qed.

(** The delay [pause] asks [time.sleep] for, and the world it leaves. *)
Definition pause_delay (attempt : nat) (w : World) : Q :=
  if jitter cfg then backoff_value attempt * jitter_factor w else backoff_value attempt.

Definition pause_world (w : World) : World :=
  if jitter cfg then mkWorld (ticks w) (S (draws w)) else w.

(** [pause] up to the call of [time.sleep]. *)
Lemma pause_unfold {O} (attempt : nat) (s : State O) :
  power_fits attempt ->
  pause env cfg attempt s =
    time_sleep (pause_delay attempt (world s))
      (mkState (obj s) (pause_world (world s)) (trace s)).
Proof.
  intros Hp. unfold pause. unfold bind at 1. rewrite backoff_fits by exact Hp.
  unfold jittered, pause_delay, pause_world, jitter_factor.
  destruct (jitter cfg).
  - reflexivity.
  - unfold bind, ret. destruct s as [o [] tr]; reflexivity.
Qed.

Lemma sleep_ok {O} (d : Q) (s : State O) :
  0 <= d -> d <= sleep_limit ->
  time_sleep d s = (Val tt, mkState (obj s) (world s) (Slept d :: trace s)).
Proof.
  intros H0 Hl. unfold time_sleep.
  replace (Qle_bool (Qabs d) sleep_limit) with true
    by (symmetry; apply Qle_bool_iff; rewrite Qabs_pos by exact H0; exact Hl).
  apply Qge_bool_true in H0. rewrite H0. reflexivity.
Qed.

Lemma sleep_negative {O} (d : Q) (s : State O) :
  d < 0 -> - sleep_limit <= d ->
  exists e, time_sleep d s = (Exn e, s) /\ exc_class e = ValueError.
Proof.
  intros H0 Hl. unfold time_sleep.
  replace (Qle_bool (Qabs d) sleep_limit) with true
    by (symmetry; apply Qle_bool_iff; rewrite Qabs_neg by lra; lra).
  apply Qge_bool_false in H0. rewrite H0. eexists. split; reflexivity.
Qed.

Lemma pause_ok {O} (attempt : nat) (s : State O) :
  power_fits attempt ->
  0 <= pause_delay attempt (world s) ->
  pause_delay attempt (world s) <= sleep_limit ->
  pause env cfg attempt s =
    (Val tt, mkState (obj s) (pause_world (world s))
               (Slept (pause_delay attempt (world s)) :: trace s)).
Proof.
  intros Hp H0 Hl. rewrite pause_unfold by exact Hp.
  rewrite sleep_ok by assumption. reflexivity.
Qed.

Lemma pause_negative {O} (attempt : nat) (s : State O) :
  power_fits attempt ->
  pause_delay attempt (world s) < 0 ->
  - sleep_limit <= pause_delay attempt (world s) ->
  exists e, fst (pause env cfg attempt s) = Exn e /\ exc_class e = ValueError /\
    trace (snd (pause env cfg attempt s)) = trace s.
Proof.
  intros Hp H0 Hl. rewrite pause_unfold by exact Hp.
  destruct (sleep_negative (pause_delay attempt (world s))
              (mkState (obj s) (pause_world (world s)) (trace s)) H0 Hl)
    as (e & He & Hc).
  rewrite He. exists e. repeat split. exact Hc.
Qed.

(** Delays are non-negative when the configured delays and base are. *)
Definition delays_nonneg : Prop :=
  0 <= initial_delay cfg /\ 0 <= exponential_base cfg /\ 0 <= max_delay cfg.

(** No delay is too long for [time.sleep]. *)
Definition sleeps_fit : Prop := max_delay cfg <= sleep_limit.

Lemma backoff_value_nonneg attempt : delays_nonneg -> 0 <= backoff_value attempt.
Proof.
  intros (Hi & Hb & Hm). unfold backoff_value. apply Q.min_glb; [|exact Hm].
  apply Qmult_le_0_compat; [exact Hi|]. apply Qpower_0_le. exact Hb.
Qed.

Lemma pause_delay_nonneg attempt w :
  delays_nonneg -> unit_interval env -> 0 <= pause_delay attempt w.
Proof.
  intros Hd Hu. unfold pause_delay. pose proof (backoff_value_nonneg attempt Hd) as Hb.
  destruct (jitter cfg); [|exact Hb].
  destruct (jitter_factor_range w Hu) as [Hl _].
  apply Qmult_le_0_compat; lra.
Qed.

Lemma pause_delay_le attempt w :
  delays_nonneg -> unit_interval env ->
  pause_delay attempt w <= backoff_value attempt /\
  pause_delay attempt w <= max_delay cfg.
Proof.
  intros Hd Hu. unfold pause_delay. pose proof (backoff_value_nonneg attempt Hd) as Hb.
  assert (Hm : backoff_value attempt <= max_delay cfg) by apply Q.le_min_r.
  destruct (jitter cfg); [|split; lra].
  destruct (jitter_factor_range w Hu) as [Hl Hh]. split; nra.
Qed.

(** A wrapped function that raises a retryable exception, whatever the
    world it is called in. *)
Definition raises_retryable {T} (f : Callee T) : Prop :=
  forall w, exists e w',
    f w = (Exn e, w') /\ isinstance_any e (retryable_exceptions cfg) = true.

Lemma invoke_raises {O T} (f : Callee T) (s : State O) e w' :
  f (world s) = (Exn e, w') ->
  invoke ByRetry (run_callee f) s =
    (Exn e, mkState (obj s) w' (Raised ByRetry e :: Called ByRetry :: trace s)).
Proof. intros Hf. unfold_py. simpl. rewrite Hf. reflexivity. Qed.

Lemma attempts_last {O T} (f : Callee T) (s : State O) remaining attempt last e w' :
  f (world s) = (Exn e, w') ->
  isinstance_any e (retryable_exceptions cfg) = true ->
  Z.of_nat attempt = max_retries cfg ->
  attempts env cfg (run_callee f) (S remaining) attempt last s =
    (Exn e, mkState (obj s) w' (Raised ByRetry e :: Called ByRetry :: trace s)).
Proof.
  intros Hrun Hre Hn. cbn [attempts]. unfold try_except.
  rewrite (invoke_raises f s e w' Hrun). cbn [obj]. rewrite Hre.
  apply Z.eqb_eq in Hn. rewrite Hn. reflexivity.
Qed.

Lemma attempts_again {O T} (f : Callee T) (s : State O) remaining attempt last e w' :
  f (world s) = (Exn e, w') ->
  isinstance_any e (retryable_exceptions cfg) = true ->
  Z.of_nat attempt <> max_retries cfg ->
  power_fits attempt ->
  0 <= pause_delay attempt w' ->
  pause_delay attempt w' <= sleep_limit ->
  attempts env cfg (run_callee f) (S remaining) attempt last s =
    attempts env cfg (run_callee f) remaining (S attempt) (Some e)
      (mkState (obj s) (pause_world w')
         (Slept (pause_delay attempt w')
            :: Raised ByRetry e :: Called ByRetry :: trace s)).
Proof.
  intros Hrun Hre Hn Hp H0 Hl. cbn [attempts]. unfold try_except.
  rewrite (invoke_raises f s e w' Hrun). cbn [obj]. rewrite Hre.
  apply Z.eqb_neq in Hn. rewrite Hn.
  unfold bind at 1. rewrite pause_ok by assumption. reflexivity.
Qed.

(** The settings under which every pause between attempts completes. *)
Definition pauses_complete : Prop :=
  delays_nonneg /\ sleeps_fit /\
  forall i, (Z.of_nat i < max_retries cfg)%Z -> power_fits i.

Lemma attempts_exhaust {O T} (f : Callee T) :
  raises_retryable f -> pauses_complete -> unit_interval env ->
  forall (remaining attempt : nat) (last : option Exc) (s : State O),
    (Z.of_nat attempt + Z.of_nat (S remaining) = max_retries cfg + 1)%Z ->
    let r := attempts env cfg (run_callee f) (S remaining) attempt last s in
    count_calls ByRetry (trace (snd r))
      = (count_calls ByRetry (trace s) + S remaining)%nat /\
    count_sleeps (trace (snd r)) = (count_sleeps (trace s) + remaining)%nat /\
    obj (snd r) = obj s /\
    (exists e rest, trace (snd r) = Raised ByRetry e :: rest /\ fst r = Exn e) /\
    exists ds,
      sleeps (trace (snd r)) = rev ds ++ sleeps (trace s) /\
      length ds = remaining /\
      forall j, (j < remaining)%nat ->
        exists w, nth j ds 0 = pause_delay (attempt + j) w.
Proof.
  intros Hf (Hd & Hsl & Hpow) Hu. unfold sleeps_fit in Hsl.
  induction remaining as [|remaining IH];
    intros attempt last s Hn r; subst r;
    destruct (Hf (world s)) as (e & w' & Hrun & Hre).
  - rewrite (attempts_last f s 0 attempt last e w') by (auto; lia).
    simpl. repeat split; try lia; eauto.
    exists []. repeat split. intros j Hj. lia.
  - pose proof (pause_delay_le attempt w' Hd Hu) as [_ Hle].
    rewrite (attempts_again f s (S remaining) attempt last e w')
      by (auto using pause_delay_nonneg; try lia; try lra; apply Hpow; lia).
    match goal with |- context [attempts _ _ _ _ _ _ ?s2] =>
      destruct (IH (S attempt) (Some e) s2) as (Hc & Hs & Ho & Hlast & ds & Hds & Hlen & Hnth);
        [lia|]
    end.
    split; [rewrite Hc; simpl; lia|]. split; [rewrite Hs; simpl; lia|].
    split; [exact Ho|]. split; [exact Hlast|].
    exists (pause_delay attempt w' :: ds). split; [|split].
    + etransitivity; [exact Hds|]. cbn [trace sleeps rev].
      rewrite <- app_assoc. reflexivity.
    + simpl. lia.
    + intros [|j] Hj.
      * exists w'. replace (attempt + 0)%nat with attempt by lia. reflexivity.
      * destruct (Hnth j ltac:(lia)) as (w & Hw). exists w.
        replace (attempt + S j)%nat with (S attempt + j)%nat by lia. exact Hw.
Qed.


(** C5, as amended.  In a run of the wrapper whose wrapped function keeps
    raising retryable exceptions, under settings with which every pause
    completes, the wrapper sleeps [max_retries] times, and the sleep before
    retry [i] (counting from 0, in the order of the run) is computed from
    [min(initial_delay * exponential_base ^ i, max_delay)]: without jitter
    it lasts exactly that long; with jitter it lasts that value times a
    factor between 1/2 and 1, both included, so it exceeds neither that
    value nor [max_delay]. *)
Theorem C5_backoff_delay {O T} (f : Callee T) (s : State O) :
  (0 <= max_retries cfg)%Z ->
  raises_retryable f ->
  pauses_complete ->
  unit_interval env ->
  let r := wrapper env cfg (run_callee f) s in
  exists ds,
    rev (sleeps (trace (snd r))) = rev (sleeps (trace s)) ++ ds /\
    length ds = Z.to_nat (max_retries cfg) /\
    forall i, (i < Z.to_nat (max_retries cfg))%nat ->
      let clamped :=
        Qmin (initial_delay cfg * exponential_base cfg ^ Z.of_nat i) (max_delay cfg) in
      (jitter cfg = false -> nth i ds 0 = clamped) /\
      (jitter cfg = true ->
       exists k, nth i ds 0 = clamped * k /\ 1 # 2 <= k /\ k <= 1) /\
      0 <= nth i ds 0 /\ nth i ds 0 <= clamped /\ nth i ds 0 <= max_delay cfg.
Proof.
  intros Hn Hf Hd Hu r. subst r. unfold wrapper.
  replace (Z.to_nat (max_retries cfg + 1)) with (S (Z.to_nat (max_retries cfg))) by lia.
  destruct (attempts_exhaust f Hf Hd Hu (Z.to_nat (max_retries cfg)) 0%nat None s)
    as (_ & _ & _ & _ & ds & Hds & Hlen & Hnth); [lia|].
  exists ds. split; [|split; [exact Hlen|]].
  - rewrite Hds, rev_app_distr, rev_involutive. reflexivity.
  - intros i Hi. cbv zeta. destruct (Hnth i Hi) as (w & Hw). cbn [Nat.add] in Hw.
    destruct Hd as (Hd & _ & _).
    pose proof (pause_delay_nonneg i w Hd Hu) as H0.
    pose proof (pause_delay_le i w Hd Hu) as [Hle Hmax].
    rewrite Hw. fold (backoff_value i).
    split; [|split; [|split; [exact H0 | split; [exact Hle | exact Hmax]]]].
    + intros Hj. unfold pause_delay. rewrite Hj. reflexivity.
    + intros Hj. exists (jitter_factor w). unfold pause_delay. rewrite Hj.
      split; [reflexivity | apply jitter_factor_range; exact Hu].
Qed.

(** C3, as amended.  When the retry wrapper is applied to a function guarded
    by [CircuitBreaker.call], with [max_retries >= 0] and a
    [retryable_exceptions] tuple none of whose classes is
    [CircuitBreakerError] or one of its bases, and the breaker is OPEN and
    not yet eligible for recovery, then the [CircuitBreakerError] reaches the
    caller after exactly one invocation of the breaker: no further attempt,
    no sleep, the guarded function never invoked, the breaker unchanged. *)
Theorem C3_open_breaker_fails_fast {T} (g : Callee T)
    (s : State circuit_breaker.CircuitBreaker) (t : Q) :
  (0 <= max_retries cfg)%Z ->
  existsb (issubclass circuit_breaker.CircuitBreakerError) (retryable_exceptions cfg)
    = false ->
  circuit_breaker.state (obj s) = circuit_breaker.OPEN ->
  circuit_breaker.last_failure_time (obj s) = Some t ->
  clock env (ticks (world s)) - t < circuit_breaker.recovery_timeout (obj s) ->
  exists e,
    wrapper env cfg (circuit_breaker.call env g) s =
      (Exn e, mkState (obj s) (tick (tick (world s)))
                (Raised ByRetry e :: Called ByRetry :: trace s)) /\
    exc_class e = circuit_breaker.CircuitBreakerError.
Proof.
  intros Hn Hre Hst Hl Hlt. unfold wrapper.
  replace (Z.to_nat (max_retries cfg + 1)) with (S (Z.to_nat (max_retries cfg))) by lia.
  cbn [attempts]. unfold try_except, invoke.
  rewrite call_unfold.
  rewrite (check_open_rejects env _ t) by assumption.
  cbn [obj world trace]. unfold isinstance_any, isinstance. cbn [exc_class circuit_breaker.open_error].
  change (existsb (fun d => issubclass circuit_breaker.CircuitBreakerError d)
            (retryable_exceptions cfg))
    with (existsb (issubclass circuit_breaker.CircuitBreakerError)
            (retryable_exceptions cfg)).
  rewrite Hre. simpl. eexists. split; reflexivity.
Qed.

End RetryFacts.

(** ** The token bucket *)

(** Successive readings of the clock never decrease. *)
Definition monotone_clock (env : Env) : Prop :=
  forall i j, (i <= j)%nat -> clock env i <= clock env j.

Section BucketFacts.
Import rate_limiter.
Variable env : Env.

(** The bucket after a refill at clock reading [now]. *)
Definition refilled (now : Q) (b : TokenBucket) : TokenBucket :=
  set_last_update now
    (set_tokens (Qmin (capacity b) (tokens b + (now - last_update b) * rate b)) b).

Lemma refill_eq (s : State TokenBucket) :
  _refill env s =
    (Val tt, mkState (refilled (clock env (ticks (world s))) (obj s))
               (tick (world s)) (trace s)).
Proof. reflexivity. Qed.

Lemma refilled_le_capacity now b : tokens (refilled now b) <= capacity b.
Proof. unfold refilled. simpl. apply Q.le_min_l. Qed.

(** The bucket is within bounds and was last refilled at a reading that no
    later reading precedes. *)
Definition bounded (s : State TokenBucket) : Prop :=
  0 <= tokens (obj s) /\ tokens (obj s) <= capacity (obj s) /\
  0 < rate (obj s) /\
  forall j, (ticks (world s) <= j)%nat -> last_update (obj s) <= clock env j.

(** A computation that keeps the bucket within bounds, whatever it
    returns or raises. *)
Definition keeps_bounded {A} (m : M TokenBucket A) : Prop :=
  forall s, bounded s -> bounded (snd (m s)).

Lemma keeps_bind {A B} (m : M TokenBucket A) (k : A -> M TokenBucket B) :
  keeps_bounded m -> (forall a, keeps_bounded (k a)) -> keeps_bounded (bind m k).
Proof.
  intros Hm Hk s Hs. unfold bind. specialize (Hm s Hs).
  destruct (m s) as [[a|e] s']; simpl in *; [apply Hk|]; exact Hm.
Qed.

Lemma keeps_ret {A} (a : A) : keeps_bounded (ret a).
Proof. intros s Hs. exact Hs. Qed.

Lemma keeps_raise {A} e : keeps_bounded (@raise TokenBucket A e).
Proof. intros s Hs. exact Hs. Qed.

Lemma keeps_time_time : keeps_bounded (time_time env).
Proof.
  intros s (H0 & H1 & Hr & Hc). unfold time_time, bounded. simpl.
  repeat split; auto. intros j Hj. apply Hc. lia.
Qed.

Lemma keeps_time_sleep d : keeps_bounded (time_sleep d).
Proof.
  intros s Hs. unfold time_sleep, emit, raise.
  destruct (Qle_bool (Qabs d) sleep_limit); [|exact Hs].
  destruct (Qge_bool d 0); exact Hs.
Qed.

Lemma keeps_refill : monotone_clock env -> keeps_bounded (_refill env).
Proof.
  intros Hmono s (H0 & H1 & Hr & Hc). rewrite refill_eq.
  unfold bounded, refilled. simpl.
  assert (He : last_update (obj s) <= clock env (ticks (world s))) by (apply Hc; lia).
  repeat split; auto.
  - apply Q.min_glb; [lra | nra].
  - apply Q.le_min_l.
  - intros j Hj. apply Hmono. lia.
Qed.

Lemma keeps_consume_pass n block timeout start :
  monotone_clock env -> 0 <= n ->
  keeps_bounded (consume_pass env n block timeout start).
Proof.
  intros Hmono Hn. unfold consume_pass.
  apply keeps_bind; [apply keeps_refill, Hmono | intros _].
  intros s Hs. unfold bind at 1. unfold get_obj at 1.
  destruct (Qge_bool (tokens (obj s)) n) eqn:Hge.
  - apply Qge_bool_true in Hge. destruct Hs as (H0 & H1 & Hr & Hc).
    unfold_py. simpl. unfold bounded. simpl. repeat split; auto; lra.
  - destruct block; simpl; [|exact Hs].
    clear Hge. revert s Hs. apply keeps_bind.
    + destruct timeout; [|apply keeps_ret].
      apply keeps_bind; [apply keeps_time_time | intros; apply keeps_ret].
    + intros [|]; [apply keeps_ret|].
      apply keeps_bind; [intros s Hs; exact Hs | intros self].
      apply keeps_bind.
      * destruct (Qeq_bool (rate self) 0); [apply keeps_raise | apply keeps_ret].
      * intros _. apply keeps_bind; [apply keeps_time_sleep | intros; apply keeps_ret].
Qed.

Lemma keeps_consume fuel n block timeout :
  monotone_clock env -> 0 <= n ->
  keeps_bounded (consume env fuel n block timeout).
Proof.
  intros Hmono Hn. unfold consume.
  apply keeps_bind; [apply keeps_time_time | intros start].
  induction fuel as [|fuel IH]; simpl; [apply keeps_ret|].
  apply keeps_bind; [apply keeps_consume_pass; assumption|].
  intros [b|]; [apply keeps_ret | exact IH].
Qed.

Lemma keeps_get_available_tokens :
  monotone_clock env -> keeps_bounded (get_available_tokens env).
Proof.
  intros Hmono. unfold get_available_tokens.
  apply keeps_bind; [apply keeps_refill, Hmono | intros _].
  apply keeps_bind; [intros s Hs; exact Hs | intros; apply keeps_ret].
Qed.

(** The operations a client performs on a bucket; a blocking [consume] is
    observed after at most [fuel] passes of its loop. *)
Inductive Op :=
| Consume (fuel : nat) (n : Q) (block : bool) (timeout : option Q)
| GetAvailableTokens.

Definition run_op (op : Op) (s : State TokenBucket) : State TokenBucket :=
  match op with
  | Consume fuel n block timeout => snd (consume env fuel n block timeout s)
  | GetAvailableTokens => snd (get_available_tokens env s)
  end.

Definition run_ops (ops : list Op) (s : State TokenBucket) : State TokenBucket :=
  fold_left (fun s op => run_op op s) ops s.

Definition nonneg_request (op : Op) : Prop :=
  match op with
  | Consume _ n _ _ => 0 <= n
  | GetAvailableTokens => True
  end.

Lemma run_ops_bounded (ops : list Op) :
  monotone_clock env -> Forall nonneg_request ops ->
  forall s, bounded s -> bounded (run_ops ops s).
Proof.
  intros Hmono. induction 1 as [|op ops Hop _ IH]; intros s Hs; [exact Hs|].
  simpl. apply IH. destruct op as [fuel n block timeout|]; simpl.
  - apply keeps_consume; assumption.
  - apply keeps_get_available_tokens; assumption.
Qed.

(** The state in which a client holds the bucket that [__init__] built in
    world [w].  The constructor does not raise; the second branch is there
    for totality only. *)
Definition constructed (rate : Q) (capacity initial_tokens : option Q) (w : World)
  : State TokenBucket :=
  match init env rate capacity initial_tokens (mkState tt w []) with
  | (Val b, s) => mkState b (world s) []
  | (Exn _, s) => mkState (mkBucket rate 0 0 0) (world s) []
  end.

Definition nonneg_opt (o : option Q) : Prop :=
  match o with Some c => 0 <= c | None => True end.

(** C6, as amended.  For a bucket built with [rate > 0], a capacity argument
    that is omitted or non-negative and an [initial_tokens] argument that is
    omitted or between 0 and the effective capacity, used at clock readings
    that never decrease through [get_available_tokens] and [consume] of
    non-negative amounts: after construction and after every operation
    (a blocking [consume] observed after any number of passes)
    [0 <= tokens <= capacity].  And a refill is monotonic in the clock
    reading: from the same bucket, with [rate >= 0], a later reading leaves
    at least as many tokens. *)
Theorem C6_token_bounds (rate : Q) (capacity initial_tokens : option Q)
    (w : World) (ops : list Op) :
  monotone_clock env ->
  0 < rate ->
  nonneg_opt capacity ->
  match initial_tokens with
  | Some t => 0 <= t /\ t <= capacity_or_rate capacity rate
  | None => True
  end ->
  Forall nonneg_request ops ->
  let s := run_ops ops (constructed rate capacity initial_tokens w) in
  (0 <= tokens (obj s) /\ tokens (obj s) <= rate_limiter.capacity (obj s)) /\
  (forall s1 s2 : State TokenBucket,
      obj s1 = obj s2 ->
      0 <= rate_limiter.rate (obj s1) ->
      clock env (ticks (world s1)) <= clock env (ticks (world s2)) ->
      tokens (obj (snd (_refill env s1))) <= tokens (obj (snd (_refill env s2)))).
Proof.
  intros Hmono Hr Hcap Hinit Hops s. split.
  - assert (Hb : bounded (constructed rate capacity initial_tokens w)).
    { unfold constructed, init. unfold_py. simpl. unfold bounded. simpl.
      assert (Hc : 0 <= capacity_or_rate capacity rate).
      { unfold capacity_or_rate. destruct capacity as [c|]; simpl in *; [|lra].
        destruct (float_truthy c); lra. }
      destruct initial_tokens as [t|]; repeat split; try lra;
        intros j Hj; apply Hmono; lia. }
    destruct (run_ops_bounded ops Hmono Hops _ Hb) as (H0 & H1 & _).
    split; assumption.
  - intros s1 s2 Ho Hrb Ht. rewrite !refill_eq. unfold refilled. simpl.
    rewrite <- Ho. apply Q.min_le_compat_l. nra.
Qed.

End BucketFacts.

Section BucketRequests.
Import rate_limiter.
Variable env : Env.

(** A request the bucket cannot serve after the refill at reading [now]. *)
Lemma short_after_refill now b n :
  capacity b < n -> Qge_bool (tokens (refilled now b)) n = false.
Proof.
  intros Hn. apply Qge_bool_false.
  pose proof (refilled_le_capacity now b). lra.
Qed.

Lemma wait_time_nonneg b n :
  0 < rate b -> tokens b < n -> 0 <= Qmin ((n - tokens b) / rate b) (1 # 10).
Proof.
  intros Hr Hn. apply Q.min_glb; [|lra].
  apply Qle_shift_div_l; [exact Hr | lra].
Qed.

Lemma rate_nonzero b : 0 < rate b -> Qeq_bool (rate b) 0 = false.
Proof.
  intros Hr. destruct (Qeq_bool (rate b) 0) eqn:E; [|reflexivity].
  apply Qeq_bool_eq in E. lra.
Qed.

(** The world and trace after one pass that found too few tokens and
    slept. *)
Definition waited (n : Q) (timed : bool) (s : State TokenBucket) : State TokenBucket :=
  let b := refilled (clock env (ticks (world s))) (obj s) in
  mkState b (if timed then tick (tick (world s)) else tick (world s))
    (Slept (Qmin ((n - tokens b) / rate b) (1 # 10)) :: trace s).

Lemma pass_rejects n timeout start (s : State TokenBucket) :
  capacity (obj s) < n ->
  consume_pass env n false timeout start s =
    (Val (Some false),
     mkState (refilled (clock env (ticks (world s))) (obj s)) (tick (world s)) (trace s)).
Proof.
  intros Hn. unfold consume_pass. unfold bind at 1. rewrite refill_eq.
  unfold bind at 1, get_obj at 1. cbn [obj].
  rewrite short_after_refill by exact Hn. reflexivity.
Qed.

Lemma pass_waits n start (s : State TokenBucket) :
  capacity (obj s) < n -> 0 < rate (obj s) ->
  consume_pass env n true None start s = (Val None, waited n false s).
Proof.
  intros Hn Hr. unfold consume_pass. unfold bind at 1. rewrite refill_eq.
  unfold bind at 1, get_obj at 1. cbn [obj].
  rewrite short_after_refill by exact Hn. cbn [negb].
  unfold ret, raise, time_sleep, get_obj, bind. cbn [obj world trace].
  set (b := refilled _ _).
  rewrite (rate_nonzero b) by exact Hr.
  assert (Hw : 0 <= Qmin ((n - tokens b) / rate b) (1 # 10)).
  { apply wait_time_nonneg; [exact Hr|].
    pose proof (refilled_le_capacity (clock env (ticks (world s))) (obj s)).
    subst b. lra. }
  rewrite (short_sleep_in_range _ Hw) by apply Q.le_min_r.
  apply Qge_bool_true in Hw. rewrite Hw. reflexivity.
Qed.


Lemma waited_config n timed s :
  capacity (obj (waited n timed s)) = capacity (obj s) /\
  rate (obj (waited n timed s)) = rate (obj s).
Proof. split; reflexivity. Qed.



(** Without a timeout the loop never returns. *)
Lemma loop_forever n start fuel :
  forall s : State TokenBucket,
    capacity (obj s) < n -> 0 < rate (obj s) ->
    fst (consume_loop env fuel n true None start s) = Val None.
Proof.
  induction fuel as [|fuel IH]; intros s Hn Hr; [reflexivity|].
  cbn [consume_loop]. unfold bind. rewrite pass_waits by assumption.
  apply IH; assumption.
Qed.



End BucketRequests.

Section BucketConstructor.
Import rate_limiter.
Variable env : Env.




End BucketConstructor.

(** ** The Redis-backed breaker against the in-memory one *)

Module Import cb := circuit_breaker.
Module rcb := circuit_breaker_redis.

(** The enum of one module seen as the enum of the other. *)
Definition shared_state (st : cb.CircuitState) : rcb.CircuitState :=
  match st with
  | cb.CLOSED => rcb.CLOSED
  | cb.OPEN => rcb.OPEN
  | cb.HALF_OPEN => rcb.HALF_OPEN
  end.

Section Refinement.
Variable env : Env.
Variable self : rcb.RedisCircuitBreaker.

Definition distinct_keys : Prop :=
  rcb.state_key self <> rcb.failures_key self /\
  rcb.state_key self <> rcb.last_failure_key self /\
  rcb.state_key self <> rcb.successes_key self /\
  rcb.failures_key self <> rcb.last_failure_key self /\
  rcb.failures_key self <> rcb.successes_key self /\
  rcb.last_failure_key self <> rcb.successes_key self.

(** The store holds the fields of the in-memory breaker [b], under a
    matching configuration. *)
Definition stored (b : CircuitBreaker) (db : gmap string rcb.RVal) : Prop :=
  rcb.name self = name b /\
  rcb.failure_threshold self = failure_threshold b /\
  rcb.recovery_timeout self = recovery_timeout b /\
  rcb.success_threshold self = success_threshold b /\
  rcb.expected_exception self = expected_exception b /\
  db !! rcb.state_key self = Some (rcb.RStr (rcb.value (shared_state (state b)))) /\
  db !! rcb.failures_key self = Some (rcb.RInt (failure_count b)) /\
  db !! rcb.successes_key self = Some (rcb.RInt (success_count b)) /\
  db !! rcb.last_failure_key self = option_map rcb.RFloat (last_failure_time b).

(** What the simulation needs of the in-memory breaker: an open circuit
    has a failure time on record, and no recorded failure time is zero. *)
Definition timed (b : CircuitBreaker) : Prop :=
  (state b = OPEN -> exists t, last_failure_time b = Some t) /\
  (forall t, last_failure_time b = Some t -> ~ t == 0).

Lemma of_value_value st : rcb.of_value (rcb.value st) = Some st.
Proof. destruct st; reflexivity. Qed.

Lemma get_state_stored b (s : State (gmap string rcb.RVal)) :
  stored b (obj s) ->
  rcb._get_state self s = (Val (shared_state (state b)), s).
Proof.
  intros (_ & _ & _ & _ & _ & Hst & _). unfold rcb._get_state, rcb.redis_get.
  unfold_py. simpl. rewrite Hst. rewrite of_value_value. reflexivity.
Qed.

Lemma get_last_failure_stored b (s : State (gmap string rcb.RVal)) :
  stored b (obj s) ->
  rcb._get_last_failure_time self s = (Val (last_failure_time b), s).
Proof.
  intros (_ & _ & _ & _ & _ & _ & _ & _ & Hl).
  unfold rcb._get_last_failure_time, rcb.redis_get.
  unfold_py. simpl. rewrite Hl. destruct (last_failure_time b); reflexivity.
Qed.

Lemma incr_stored k z (s : State (gmap string rcb.RVal)) :
  obj s !! k = Some (rcb.RInt z) ->
  rcb.redis_incr k s =
    (Val (z + 1)%Z, mkState (<[k := rcb.RInt (z + 1)]> (obj s)) (world s) (trace s)).
Proof.
  intros Hk. unfold rcb.redis_incr. unfold_py. simpl. rewrite Hk. reflexivity.
Qed.

Lemma set_eq k v (s : State (gmap string rcb.RVal)) :
  rcb.redis_set k v s = (Val tt, mkState (<[k := v]> (obj s)) (world s) (trace s)).
Proof. reflexivity. Qed.

Lemma float_truthy_nonzero t : ~ t == 0 -> rcb.float_truthy t = true.
Proof.
  intros Ht. unfold rcb.float_truthy. destruct (Qeq_bool t 0) eqn:E; [|reflexivity].
  apply Qeq_bool_eq in E. contradiction.
Qed.

Lemma rcheck_not_open b (s : State (gmap string rcb.RVal)) :
  stored b (obj s) -> state b <> OPEN ->
  rcb.check self env s = (Val tt, s).
Proof.
  intros Hs Hst. unfold rcb.check. unfold bind at 1.
  rewrite (get_state_stored b) by exact Hs.
  destruct (state b); simpl; first [reflexivity | congruence].
Qed.

Lemma rcheck_rejects b (s : State (gmap string rcb.RVal)) t :
  stored b (obj s) -> state b = OPEN ->
  last_failure_time b = Some t -> ~ t == 0 ->
  clock env (ticks (world s)) - t < recovery_timeout b ->
  rcb.check self env s =
    (Exn (open_error (name b)
            (recovery_timeout b - (clock env (S (ticks (world s))) - t))),
     mkState (obj s) (tick (tick (world s))) (trace s)).
Proof.
  intros Hs Hst Hl Hnz Hlt. unfold rcb.check. unfold bind at 1.
  rewrite (get_state_stored b) by exact Hs. rewrite Hst.
  cbn [shared_state rcb.CircuitState_eqb]. unfold bind at 1.
  rewrite (get_last_failure_stored b) by exact Hs. rewrite Hl.
  rewrite (float_truthy_nonzero t Hnz).
  destruct Hs as (Hnm & _ & Hrt & _).
  unfold_py. cbn [obj world trace]. rewrite Hrt.
  apply Qge_bool_false in Hlt. rewrite Hlt. cbn [obj world trace ticks].
  unfold rcb.open_error, open_error. rewrite Hnm. reflexivity.
Qed.

Lemma rcheck_admits b (s : State (gmap string rcb.RVal)) t :
  stored b (obj s) -> state b = OPEN ->
  last_failure_time b = Some t -> ~ t == 0 ->
  recovery_timeout b <= clock env (ticks (world s)) - t ->
  rcb.check self env s =
    (Val tt,
     mkState (<[rcb.successes_key self := rcb.RInt 0]>
                (<[rcb.state_key self := rcb.RStr (rcb.value rcb.HALF_OPEN)]> (obj s)))
       (tick (world s)) (trace s)).
Proof.
  intros Hs Hst Hl Hnz Hle. unfold rcb.check. unfold bind at 1.
  rewrite (get_state_stored b) by exact Hs. rewrite Hst.
  cbn [shared_state rcb.CircuitState_eqb]. unfold bind at 1.
  rewrite (get_last_failure_stored b) by exact Hs. rewrite Hl.
  rewrite (float_truthy_nonzero t Hnz).
  destruct Hs as (Hnm & _ & Hrt & _).
  unfold_py. cbn [obj world trace]. rewrite Hrt.
  apply Qge_bool_true in Hle. rewrite Hle. reflexivity.
Qed.

Ltac stored_solve :=
  lazymatch goal with
  | Hs : stored _ _, Hk : distinct_keys |- stored _ _ =>
      let H1 := fresh in let H2 := fresh in let H3 := fresh in
      let H4 := fresh in let H5 := fresh in let H6 := fresh in
      destruct Hk as (H1 & H2 & H3 & H4 & H5 & H6);
      destruct Hs as (? & ? & ? & ? & ? & ? & ? & ? & ?);
      unfold stored; simpl;
      repeat split; try assumption;
      repeat first
        [ rewrite lookup_insert_eq
        | rewrite lookup_insert_ne by congruence ];
      try assumption; try reflexivity
  end.

Lemma admitted_stored b db :
  distinct_keys -> stored b db ->
  stored (admitted b)
    (<[rcb.successes_key self := rcb.RInt 0]>
       (<[rcb.state_key self := rcb.RStr (rcb.value rcb.HALF_OPEN)]> db)).
Proof. intros Hk Hs. unfold admitted. stored_solve. Qed.

(** [call] of the Redis breaker once the check has let the call through. *)
Definition rguarded {T} (func : Callee T) : M (gmap string rcb.RVal) T :=
  try_except
    (result <- invoke ByBreaker (run_callee func) ;;
     rcb.on_success self ;;;
     ret result)
    (fun _ e =>
       if isinstance e (rcb.expected_exception self)
       then Some (rcb.on_failure self env e)
       else None).

Lemma rcall_unfold {T} (func : Callee T) (s : State (gmap string rcb.RVal)) :
  rcb.call self env func s =
    match rcb.check self env s with
    | (Val _, s1) => rguarded func s1
    | (Exn e, s1) => (Exn e, s1)
    end.
Proof. reflexivity. Qed.

Lemma rguarded_success {T} (func : Callee T) b (s : State (gmap string rcb.RVal)) v w' :
  distinct_keys -> stored b (obj s) ->
  returns_in func (world s) v w' ->
  exists db',
    rguarded func s =
      (Val v, mkState db' w' (Returned ByBreaker :: Called ByBreaker :: trace s)) /\
    stored (succeeded b) db'.
Proof.
  intros Hk Hs Hf. unfold rguarded, returns_in in *.
  unfold try_except, bind at 1, invoke, run_callee. cbn [obj world trace].
  rewrite Hf. cbn [obj world trace]. unfold bind at 1. unfold rcb.on_success. unfold bind at 1.
  rewrite (get_state_stored b) by exact Hs.
  unfold succeeded.
  destruct (state b) eqn:Hst; cbn [shared_state rcb.CircuitState_eqb].
  - unfold rcb._reset_failures. rewrite set_eq. cbn [obj world trace].
    eexists. split; [reflexivity|]. stored_solve.
  - unfold rcb._reset_failures. rewrite set_eq. cbn [obj world trace].
    eexists. split; [reflexivity|]. stored_solve.
  - unfold bind at 1, rcb._incr_successes.
    rewrite (incr_stored _ (success_count b))
      by (destruct Hs as (_ & _ & _ & _ & _ & _ & _ & Hsk & _); exact Hsk).
    cbn [obj world trace].
    replace (rcb.success_threshold self) with (success_threshold b)
      by (destruct Hs as (_ & _ & _ & Hsth & _); congruence).
    cbn [success_count set_success_count success_threshold].
    destruct (success_count b + 1 >=? success_threshold b)%Z.
    + unfold rcb._set_state, rcb._reset_failures, rcb.redis_set. unfold_py.
      cbn [obj world trace].
      eexists. split; [reflexivity|]. stored_solve.
    + unfold_py. eexists. split; [reflexivity|]. stored_solve.
Qed.

Lemma rguarded_failure {T} (func : Callee T) b (s : State (gmap string rcb.RVal)) e w' :
  distinct_keys -> stored b (obj s) ->
  raises_in func (world s) e w' ->
  isinstance e (expected_exception b) = true ->
  exists db',
    rguarded func s =
      (Exn e, mkState db' (tick w')
                (Raised ByBreaker e :: Called ByBreaker :: trace s)) /\
    stored (failed (clock env (ticks w')) b) db'.
Proof.
  intros Hk Hs Hf Hi. unfold rguarded, raises_in in *.
  unfold try_except, bind at 1, invoke, run_callee. cbn [obj world trace].
  rewrite Hf. cbn [obj world trace].
  replace (rcb.expected_exception self) with (expected_exception b)
    by (destruct Hs as (_ & _ & _ & _ & Hee & _); congruence).
  rewrite Hi. unfold rcb.on_failure. unfold bind at 1, rcb._incr_failures.
  rewrite (incr_stored _ (failure_count b))
    by (destruct Hs as (_ & _ & _ & _ & _ & _ & Hfk & _); exact Hfk).
  cbn [obj world trace].
  replace (rcb.failure_threshold self) with (failure_threshold b)
    by (destruct Hs as (_ & Hft & _); congruence).
  unfold rcb._set_last_failure_time, rcb._reset_successes, rcb._set_state, rcb.redis_set.
  unfold failed. cbn [failure_count set_success_count set_last_failure_time
                        set_failure_count failure_threshold].
  unfold_py. cbn [obj world trace].
  destruct (failure_count b + 1 >=? failure_threshold b)%Z.
  - eexists. split; [reflexivity|]. stored_solve.
  - eexists. split; [reflexivity|]. stored_solve.
Qed.

Lemma rguarded_other {T} (func : Callee T) b (s : State (gmap string rcb.RVal)) e w' :
  stored b (obj s) ->
  raises_in func (world s) e w' ->
  isinstance e (expected_exception b) = false ->
  rguarded func s =
    (Exn e, mkState (obj s) w' (Raised ByBreaker e :: Called ByBreaker :: trace s)).
Proof.
  intros Hs Hf Hi. unfold rguarded, raises_in in *.
  unfold try_except, bind at 1, invoke, run_callee. cbn [obj world trace].
  rewrite Hf. cbn [obj world trace].
  replace (rcb.expected_exception self) with (expected_exception b)
    by (destruct Hs as (_ & _ & _ & _ & Hee & _); congruence).
  rewrite Hi. reflexivity.
Qed.

(** No reading of the clock is exactly zero. *)
Definition nonzero_clock : Prop := forall i, ~ clock env i == 0.

Lemma admitted_timed b : timed b -> timed (admitted b).
Proof. intros [_ Hnz]. split; [discriminate | exact Hnz]. Qed.

Lemma succeeded_timed b : timed b -> timed (succeeded b).
Proof.
  intros [Hop Hnz]. unfold succeeded.
  destruct (state b) eqn:Hst; simpl.
  - split; simpl; [rewrite Hst; discriminate | exact Hnz].
  - split; simpl; [rewrite Hst; auto | exact Hnz].
  - destruct (success_count b + 1 >=? success_threshold b)%Z; split; simpl;
      try discriminate; try exact Hnz. rewrite Hst. discriminate.
Qed.

Lemma failed_timed i b : nonzero_clock -> timed b -> timed (failed (clock env i) b).
Proof.
  intros Hclk [Hop Hnz]. unfold failed. simpl.
  destruct (failure_count b + 1 >=? failure_threshold b)%Z; split; simpl; eauto;
    intros t [= <-]; apply Hclk.
Qed.

(** One call: the two breakers return or raise the same, take the same
    readings, record the same events, and stay related. *)
Lemma call_simulates {T} (func : Callee T) b db w tr :
  distinct_keys -> nonzero_clock -> stored b db -> timed b ->
  exists r b' db' w' tr',
    call env func (mkState b w tr) = (r, mkState b' w' tr') /\
    rcb.call self env func (mkState db w tr) = (r, mkState db' w' tr') /\
    stored b' db' /\ timed b'.
Proof.
  intros Hk Hclk Hs Ht. rewrite call_unfold, rcall_unfold.
  assert (Hgo : forall b1 db1 w1, stored b1 db1 -> timed b1 ->
            exists r b' db' w' tr',
              guarded env func (mkState b1 w1 tr) = (r, mkState b' w' tr') /\
              rguarded func (mkState db1 w1 tr) = (r, mkState db' w' tr') /\
              stored b' db' /\ timed b').
  { intros b1 db1 w1 Hs1 Ht1.
    destruct (func w1) as [[v|e] w'] eqn:Hf.
    - destruct (rguarded_success func b1 (mkState db1 w1 tr) v w' Hk Hs1 Hf)
        as (db' & Hr & Hs').
      rewrite (guarded_success env func (mkState b1 w1 tr) v w' Hf), Hr.
      eexists _, _, _, _, _.
      split; [reflexivity | split; [reflexivity | split]];
        [exact Hs' | apply succeeded_timed, Ht1].
    - destruct (isinstance e (expected_exception b1)) eqn:Hi.
      + destruct (rguarded_failure func b1 (mkState db1 w1 tr) e w' Hk Hs1 Hf Hi)
          as (db' & Hr & Hs').
        rewrite (guarded_failure env func (mkState b1 w1 tr) e w' Hf Hi), Hr.
        eexists _, _, _, _, _.
        split; [reflexivity | split; [reflexivity | split]];
          [exact Hs' | apply failed_timed; assumption].
      + rewrite (guarded_other env func (mkState b1 w1 tr) e w' Hf Hi).
        rewrite (rguarded_other func b1 (mkState db1 w1 tr) e w' Hs1 Hf Hi).
        eexists _, _, _, _, _.
        split; [reflexivity | split; [reflexivity | split]]; assumption. }
  destruct (state b) eqn:Hst.
  - rewrite check_not_open by (simpl; congruence).
    rewrite (rcheck_not_open b) by (simpl; congruence). apply Hgo; assumption.
  - destruct Ht as [Hop Hnz]. destruct (Hop Hst) as (t & Hl).
    destruct (Qlt_le_dec (clock env (ticks w) - t) (recovery_timeout b)) as [Hlt | Hle].
    + rewrite (check_open_rejects env (mkState b w tr) t Hst Hl Hlt).
      rewrite (rcheck_rejects b (mkState db w tr) t Hs Hst Hl (Hnz t Hl) Hlt).
      eexists _, _, _, _, _.
      split; [reflexivity | split; [reflexivity | split]];
        [exact Hs | split; assumption].
    + rewrite (check_open_admits env (mkState b w tr) t Hst Hl Hle).
      rewrite (rcheck_admits b (mkState db w tr) t Hs Hst Hl (Hnz t Hl) Hle).
      apply Hgo; [apply admitted_stored; assumption | apply admitted_timed; split; assumption].
  - rewrite check_not_open by (simpl; congruence).
    rewrite (rcheck_not_open b) by (simpl; congruence). apply Hgo; assumption.
Qed.

(** A sequence of calls by a caller that looks at each result. *)
Fixpoint calls {T} (fs : list (Callee T)) (s : State CircuitBreaker)
  : list (Res T) * State CircuitBreaker :=
  match fs with
  | [] => ([], s)
  | f :: fs' =>
      let (r, s1) := call env f s in
      let (rs, s2) := calls fs' s1 in (r :: rs, s2)
  end.

Fixpoint rcalls {T} (fs : list (Callee T)) (s : State (gmap string rcb.RVal))
  : list (Res T) * State (gmap string rcb.RVal) :=
  match fs with
  | [] => ([], s)
  | f :: fs' =>
      let (r, s1) := rcb.call self env f s in
      let (rs, s2) := rcalls fs' s1 in (r :: rs, s2)
  end.

Lemma calls_simulate {T} (fs : list (Callee T)) :
  distinct_keys -> nonzero_clock ->
  forall b db w tr,
    stored b db -> timed b ->
    fst (calls fs (mkState b w tr)) = fst (rcalls fs (mkState db w tr)) /\
    world (snd (calls fs (mkState b w tr))) = world (snd (rcalls fs (mkState db w tr))) /\
    trace (snd (calls fs (mkState b w tr))) = trace (snd (rcalls fs (mkState db w tr))) /\
    stored (obj (snd (calls fs (mkState b w tr))))
      (obj (snd (rcalls fs (mkState db w tr)))).
Proof.
  intros Hk Hclk. induction fs as [|f fs IH]; intros b db w tr Hs Ht.
  - simpl. split; [reflexivity | split; [reflexivity | split; [reflexivity | exact Hs]]].
  - destruct (call_simulates f b db w tr Hk Hclk Hs Ht)
      as (r & b' & db' & w' & tr' & Hc & Hr & Hs' & Ht').
    cbn [calls rcalls]. rewrite Hc, Hr.
    destruct (IH b' db' w' tr' Hs' Ht') as (H1 & H2 & H3 & H4).
    destruct (calls fs _) as [rs s2], (rcalls fs _) as [rs' s2'].
    simpl in *. split; [congruence | split; [exact H2 | split; [exact H3 | exact H4]]].
Qed.

End Refinement.

Section RedisInit.
Variable env : Env.

(** The breaker object that [RedisCircuitBreaker.__init__] builds. *)
Definition redis_breaker (nm : string) (ft : Z) (rt : Q) (st : Z) (ee : ExcClass)
    (prefix : string) : rcb.RedisCircuitBreaker :=
  let p := (prefix ++ ":" ++ nm)%string in
  rcb.mkRedisBreaker nm ft rt st ee p
    (p ++ ":state") (p ++ ":failures") (p ++ ":last_failure") (p ++ ":successes").

Lemma redis_breaker_keys nm ft rt st ee prefix :
  distinct_keys (redis_breaker nm ft rt st ee prefix).
Proof.
  unfold distinct_keys, redis_breaker. simpl.
  repeat split; intros H; apply String.app_inj in H; discriminate.
Qed.

(** On an empty store the constructor writes the initial fields. *)
Lemma redis_init_stored nm ft rt st ee prefix w tr :
  exists db,
    rcb.init nm ft rt st ee prefix (mkState ∅ w tr)
      = (Val (redis_breaker nm ft rt st ee prefix), mkState db w tr) /\
    stored (redis_breaker nm ft rt st ee prefix) (cb.init nm ft rt st ee) db.
Proof.
  pose proof (redis_breaker_keys nm ft rt st ee prefix) as Hk.
  unfold distinct_keys, redis_breaker in Hk. simpl in Hk.
  destruct Hk as (H1 & H2 & H3 & H4 & H5 & H6).
  unfold rcb.init, rcb.redis_exists, rcb.redis_set. unfold_py. cbn [obj world trace].
  fold (redis_breaker nm ft rt st ee prefix).
  rewrite lookup_empty. cbn [negb obj world trace].
  eexists. split; [reflexivity|].
  unfold stored, cb.init. simpl.
  repeat split;
    repeat first [ rewrite lookup_insert_eq
                 | rewrite lookup_insert_ne by congruence
                 | rewrite lookup_empty ];
    reflexivity.
Qed.

(** Supporting C9: apart from clock readings that are exactly zero, the
    Redis-backed breaker built on an empty store and the in-memory breaker
    with the same configuration behave alike on every sequence of calls:
    the same results and exceptions, the same clock readings and events, and
    a store that holds the fields of the in-memory breaker. *)
Lemma redis_simulates_in_memory {T} (fs : list (Callee T))
    nm ft rt st ee prefix w tr :
  nonzero_clock env ->
  exists db,
    rcb.init nm ft rt st ee prefix (mkState ∅ w tr)
      = (Val (redis_breaker nm ft rt st ee prefix), mkState db w tr) /\
    let mem := calls env fs (mkState (cb.init nm ft rt st ee) w tr) in
    let red := rcalls env (redis_breaker nm ft rt st ee prefix) fs (mkState db w tr) in
    fst mem = fst red /\
    world (snd mem) = world (snd red) /\
    trace (snd mem) = trace (snd red) /\
    stored (redis_breaker nm ft rt st ee prefix) (obj (snd mem)) (obj (snd red)).
Proof.
  intros Hclk.
  destruct (redis_init_stored nm ft rt st ee prefix w tr) as (db & Hinit & Hs).
  exists db. split; [exact Hinit|].
  apply calls_simulate; auto using redis_breaker_keys.
  split; [discriminate | intros t [=]].
Qed.

End RedisInit.

(** * Concrete runs *)

Module Examples.

(** A clock that advances by one second at every reading, from the epoch,
    and a generator that always draws 0. *)
Definition env_steady : Env := mkEnv (fun i => inject_Z (Z.of_nat i)) (fun _ => 0).

(** A clock that reads exactly 0 at its first reading and 100 afterwards. *)
Definition env_epoch : Env :=
  mkEnv (fun i => match i with O => 0 | S _ => 100 end) (fun _ => 0).

Definition w0 : World := mkWorld 0 0.

Definition boom_exc : Exc := mkExc ValueError "boom" None.
Definition type_exc : Exc := mkExc TypeError "bad argument" None.

Definition boom : Callee unit := fun w => (Exn boom_exc, w).
Definition bad_call : Callee unit := fun w => (Exn type_exc, w).
Definition fine : Callee unit := fun w => (Val tt, w).

Lemma env_steady_monotone : monotone_clock env_steady.
Proof. intros i j Hij. simpl. rewrite <- Zle_Qle. lia. Qed.

Lemma env_steady_unit_interval : unit_interval env_steady.
Proof. intros i. simpl. split; lra. Qed.

Lemma boom_raises_expected : raises_expected Exception boom.
Proof. intros w. exists boom_exc, w. split; reflexivity. Qed.

(** A breaker with threshold 2, as built by the constructor. *)
Definition fresh_breaker : State CircuitBreaker :=
  mkState (cb.init "api" 2 60 3 Exception) w0 [].


(** A breaker with threshold 1 and a one-second recovery timeout, tripped by
    a failure at reading 0, then admitted to a trial at reading 1 in which
    one call succeeded: HALF_OPEN with one success out of two. *)
Definition tripped : CircuitBreaker :=
  obj (snd (call env_steady boom (mkState (cb.init "api" 1 1 2 Exception) w0 []))).

Definition on_trial : CircuitBreaker :=
  obj (snd (call env_steady fine (mkState tripped (mkWorld 1 0) []))).

Lemma on_trial_reachable : reachable on_trial.
Proof. unfold on_trial, tripped. do 2 apply reach_call. apply reach_init. Qed.


(** A breaker that expects [ValueError] only, tripped at reading 0. *)
Definition picky_open : State CircuitBreaker :=
  mkState
    (obj (snd (call env_steady boom (mkState (cb.init "api" 1 1 2 ValueError) w0 []))))
    (mkWorld 1 0) [].

(** C8 fails as stated: a call that finds the breaker OPEN with its recovery
    timeout elapsed, and whose function raises a [TypeError] that the
    breaker does not expect, propagates the error but leaves the breaker
    HALF_OPEN, not OPEN. *)
Lemma C8_counterexample :
  let r := call env_steady bad_call picky_open in
  fst r = Exn type_exc /\
  isinstance type_exc (expected_exception (obj picky_open)) = false /\
  state (obj picky_open) = OPEN /\
  state (obj (snd r)) = HALF_OPEN /\
  obj (snd r) <> obj picky_open.
Proof.
  cbv zeta. repeat split; try reflexivity. intros H.
  apply (f_equal state) in H. discriminate H.
Qed.

Lemma C8_witness :
  obj (snd (call env_steady bad_call picky_open)) = admitted (obj picky_open).
Proof.
  apply (C8_unexpected_exception_frame env_steady bad_call picky_open type_exc);
    reflexivity.
Defined.

(** A breaker with a 60-second recovery timeout, tripped at reading 0 and
    called again from reading 1 on: OPEN and not yet eligible for recovery. *)
Definition just_tripped : State CircuitBreaker :=
  mkState
    (obj (snd (call env_steady boom (mkState (cb.init "api" 1 60 3 Exception) w0 []))))
    (mkWorld 1 0) [].

(** C3 fails as stated: under the default [retryable_exceptions],
    [(Exception,)], the [CircuitBreakerError] of the open breaker is retried
    like any other exception: the breaker is invoked four times
    ([max_retries = 3]) with three backoff sleeps in between, before the
    error reaches the caller. *)
Lemma C3_counterexample :
  let r := retry.wrapper env_steady retry.defaults (call env_steady fine) just_tripped in
  state (obj just_tripped) = OPEN /\
  (exists e, fst r = Exn e /\ exc_class e = CircuitBreakerError) /\
  count_calls ByRetry (trace (snd r)) = 4%nat /\
  count_calls ByBreaker (trace (snd r)) = 0%nat /\
  count_sleeps (trace (snd r)) = 3%nat.
Proof.
  vm_compute. split; [reflexivity|]. split; [eexists; split; reflexivity|].
  repeat split; reflexivity.
Qed.

(** A retry policy for which only [ValueError] is retryable. *)
Definition picky_retry : retry.Config := retry.mkConfig 3 1 60 2 true [ValueError].

Lemma C3_witness :
  exists e,
    retry.wrapper env_steady picky_retry (call env_steady fine) just_tripped =
      (Exn e, mkState (obj just_tripped) (mkWorld 3 0) [Raised ByRetry e; Called ByRetry]) /\
    exc_class e = CircuitBreakerError.
Proof.
  destruct (C3_open_breaker_fails_fast env_steady picky_retry fine just_tripped 0)
    as (e & He & Hc).
  - simpl. lia.
  - reflexivity.
  - reflexivity.
  - reflexivity.
  - reflexivity.
  - exists e. split; [exact He | exact Hc].
Defined.

Lemma boom_raises_retryable : raises_retryable retry.defaults boom.
Proof. intros w. exists boom_exc, w. split; reflexivity. Qed.

Lemma defaults_delays_nonneg : delays_nonneg retry.defaults.
Proof. unfold delays_nonneg. simpl. repeat split; lra. Qed.

Lemma defaults_pauses_complete : pauses_complete retry.defaults.
Proof.
  split; [exact defaults_delays_nonneg|]. split.
  - unfold sleeps_fit. vm_compute. discriminate.
  - intros i Hi. assert (Hlt : (i < 3)%nat) by (simpl in Hi; lia).
    destruct i as [|[|[|i]]]; [vm_compute; reflexivity .. | lia].
Qed.


Definition huge_base : retry.Config :=
  retry.mkConfig 3 1 60 (inject_Z (2 ^ 600)) false [Exception].



(** A generator that always draws the largest float below 1. *)
Definition env_top : Env :=
  mkEnv (fun i => inject_Z (Z.of_nat i)) (fun _ => Qmake (2 ^ 53 - 1) (2 ^ 53)).

Lemma env_top_unit_interval : unit_interval env_top.
Proof. intros i. split; vm_compute; [discriminate | reflexivity]. Qed.

(** C5 fails as stated.  With the default settings and a draw of
    [1 - 2^-53], the largest that [random.random()] returns, the factor
    [0.5 + r * 0.5] is rounded to 1.0 and every sleep lasts exactly the
    value before jitter, outside [[0.5, 1.0)] times it; and with a base of
    [2.0 ** 600] the wrapper computes no delay at all for retry 2: it
    raises [OverflowError] after two sleeps. *)
Lemma C5_counterexample :
  let r1 := retry.wrapper env_top retry.defaults (run_callee boom) (mkState tt w0 []) in
  let r2 := retry.wrapper env_steady huge_base (run_callee boom) (mkState tt w0 []) in
  (exists d0 d1 d2,
     rev (sleeps (trace (snd r1))) = [d0; d1; d2] /\
     d0 == Qmin (1 * 2 ^ 0) 60 /\ d1 == Qmin (1 * 2 ^ 1) 60 /\
     d2 == Qmin (1 * 2 ^ 2) 60) /\
  count_sleeps (trace (snd r2)) = 2%nat /\
  (exists e, fst r2 = Exn e /\ exc_class e = OverflowError).
Proof.
  vm_compute. split; [|split; [reflexivity | eexists; split; reflexivity]].
  do 3 eexists. split; [reflexivity|]. repeat split.
Qed.

Lemma C5_witness :
  exists ds,
    rev (sleeps
           (trace (snd (retry.wrapper env_steady retry.defaults (run_callee boom)
                          (mkState tt w0 []))))) = ds /\
    length ds = 3%nat /\
    1 # 2 <= nth 0 ds 0 /\ nth 0 ds 0 <= 1 /\ nth 2 ds 0 <= 4.
Proof.
  destruct (C5_backoff_delay env_steady retry.defaults boom (mkState tt w0 []))
    as (ds & Hds & Hlen & Hnth).
  - simpl. lia.
  - exact boom_raises_retryable.
  - exact defaults_pauses_complete.
  - exact env_steady_unit_interval.
  - exists ds. split; [exact Hds|]. split; [exact Hlen|].
    destruct (Hnth 0%nat ltac:(simpl; lia)) as (_ & Hj0 & _ & Hle0 & _).
    destruct (Hnth 2%nat ltac:(simpl; lia)) as (_ & _ & _ & Hle2 & _).
    destruct (Hj0 eq_refl) as (k & Hk & Hkl & Hkh).
    cbv zeta in *. simpl in Hk, Hle0, Hle2.
    assert (H1 : Qmin (1 * 1) 60 == 1) by reflexivity.
    assert (H4 : Qmin (1 * (2 * 2)) 60 == 4) by reflexivity.
    split; [rewrite Hk, H1; lra|]. split; [rewrite H1 in Hle0; exact Hle0|].
    rewrite H4 in Hle2. exact Hle2.
Defined.

(** C6 fails as stated: a bucket built with [rate = 1], [capacity = 10] and
    [initial_tokens = -5] reports a negative number of tokens. *)
Lemma C6_counterexample :
  exists q,
    fst (rate_limiter.get_available_tokens env_steady
           (constructed env_steady 1 (Some 10) (Some (-5)) w0)) = Val q /\
    q < 0 /\
    rate_limiter.tokens
      (obj (run_ops env_steady [GetAvailableTokens]
              (constructed env_steady 1 (Some 10) (Some (-5)) w0))) < 0.
Proof. eexists. split; [reflexivity|]. split; reflexivity. Qed.

(** Two more ways out of the bounds, next to the one above: a clock that
    steps back takes tokens away, and a negative request adds tokens. *)
Definition env_backwards : Env :=
  mkEnv (fun i => match i with O => 10 | S _ => 0 end) (fun _ => 0).

Example tokens_below_zero_when_clock_steps_back :
  rate_limiter.tokens
    (obj (run_ops env_backwards [Consume 1 5 false None; GetAvailableTokens]
            (constructed env_backwards 1 (Some 5) None w0))) < 0.
Proof. reflexivity. Qed.

Example tokens_above_capacity_after_negative_request :
  let s := run_ops env_steady [Consume 1 (-5) false None]
             (constructed env_steady 1 (Some 10) None w0) in
  rate_limiter.capacity (obj s) < rate_limiter.tokens (obj s).
Proof. reflexivity. Qed.

Lemma C6_witness :
  let s := run_ops env_steady [Consume 3 4 true None; GetAvailableTokens]
             (constructed env_steady 1 (Some 10) None w0) in
  0 <= rate_limiter.tokens (obj s) /\
  rate_limiter.tokens (obj s) <= rate_limiter.capacity (obj s).
Proof.
  apply (C6_token_bounds env_steady 1 (Some 10) None w0
           [Consume 3 4 true None; GetAvailableTokens]).
  - exact env_steady_monotone.
  - reflexivity.
  - simpl. lra.
  - exact I.
  - repeat constructor. simpl. lra.
Defined.







(** C9, the failing run.  With a failure recorded at a clock reading of
    exactly 0, the in-memory breaker admits the next call to a trial once
    the recovery timeout has elapsed, and closes; the Redis-backed breaker
    takes the stored timestamp [0.0] for a missing one, raises
    [CircuitBreakerError] and stays open. *)
Theorem C9_zero_timestamp_divergence :
  let self := redis_breaker "api" 1 5 1 Exception "circuit_breaker" in
  exists db,
    rcb.init "api" 1 5 1 Exception "circuit_breaker" (mkState ∅ w0 [])
      = (Val self, mkState db w0 []) /\
    let mem := calls env_epoch [boom; fine] (mkState (cb.init "api" 1 5 1 Exception) w0 []) in
    let red := rcalls env_epoch self [boom; fine] (mkState db w0 []) in
    fst mem = [Exn boom_exc; Val tt] /\
    state (obj (snd mem)) = CLOSED /\
    (exists e, fst red = [Exn boom_exc; Exn e] /\
       exc_class e = rcb.CircuitBreakerError) /\
    obj (snd red) !! rcb.state_key self = Some (rcb.RStr (rcb.value rcb.OPEN)).
Proof.
  eexists. split; [reflexivity|]. vm_compute.
  split; [reflexivity|]. split; [reflexivity|].
  split; [eexists; split; reflexivity | reflexivity].
Qed.

End Examples.

(** * Further properties *)

(** ** The in-memory breaker: the remaining transitions *)

Section BreakerTransitions.
Variable env : Env.

(** A wrapped function that returns, whatever the world it is called in. *)
Definition always_returns {T} (f : Callee T) : Prop :=
  forall w, exists v w', f w = (Val v, w').

Lemma call_all_app {T} (fs gs : list (Callee T)) (s : State CircuitBreaker) :
  call_all env (fs ++ gs) s = call_all env gs (call_all env fs s).
Proof. revert s. induction fs as [|f fs IH]; intros s; simpl; auto. Qed.

(** Failures that stay below the threshold are counted and nothing else
    changes state. *)
Lemma closed_failures_below {T} (fs : list (Callee T)) :
  forall s : State CircuitBreaker,
    state (obj s) = CLOSED ->
    (failure_count (obj s) + Z.of_nat (length fs) < failure_threshold (obj s))%Z ->
    Forall (raises_expected (expected_exception (obj s))) fs ->
    state (obj (call_all env fs s)) = CLOSED /\
    failure_count (obj (call_all env fs s))
      = (failure_count (obj s) + Z.of_nat (length fs))%Z /\
    same_config (obj s) (obj (call_all env fs s)).
Proof.
  induction fs as [|f fs IH]; intros s Hst Hlen Hall.
  - simpl. repeat split; auto; lia.
  - inversion Hall as [|? ? Hf Hrest]; subst.
    destruct (Hf (world s)) as (e & w' & Hrun & Hinst).
    cbn [call_all]. rewrite call_unfold, check_not_open by congruence.
    rewrite (guarded_failure env f s e w' Hrun Hinst). cbn [snd].
    set (s1 := mkState _ _ _).
    assert (Hs1 : obj s1 = set_success_count 0
               (set_last_failure_time (Some (clock env (ticks w')))
                  (set_failure_count (failure_count (obj s) + 1) (obj s)))).
    { subst s1. cbn [obj]. unfold failed. cbn [failure_count set_success_count
        set_last_failure_time set_failure_count failure_threshold].
      replace (failure_count (obj s) + 1 >=? failure_threshold (obj s))%Z with false;
        [reflexivity|].
      symmetry. apply Zgeb_false. cbn [length] in Hlen. lia. }
    destruct (IH s1) as (Hc & Hn & Hcfg).
    + rewrite Hs1. exact Hst.
    + rewrite Hs1. cbn [length] in Hlen. simpl. lia.
    + rewrite Hs1. exact Hrest.
    + split; [exact Hc|]. split.
      * rewrite Hn, Hs1. cbn [length]. simpl. lia.
      * rewrite Hs1 in Hcfg. destruct Hcfg as (? & ? & ? & ? & ?).
        repeat split; assumption.
Qed.

Lemma call_success_not_open {T} (f : Callee T) (s : State CircuitBreaker) v w' :
  state (obj s) <> OPEN ->
  f (world s) = (Val v, w') ->
  call env f s =
    (Val v, mkState (succeeded (obj s)) w'
              (Returned ByBreaker :: Called ByBreaker :: trace s)).
Proof.
  intros Hst Hf. rewrite call_unfold, check_not_open by exact Hst.
  apply guarded_success. exact Hf.
Qed.

(** X1 (one success clears the count).  In the CLOSED state failures must
    be consecutive to trip the breaker: after fewer than
    [failure_threshold] failures, one success, and again fewer than
    [failure_threshold] failures, the breaker is still CLOSED and its count
    is the number of failures since the success. *)
Theorem X1_success_clears_failures {T} (before after : list (Callee T))
    (ok : Callee T) (s : State CircuitBreaker) :
  state (obj s) = CLOSED ->
  failure_count (obj s) = 0%Z ->
  (Z.of_nat (length before) < failure_threshold (obj s))%Z ->
  (Z.of_nat (length after) < failure_threshold (obj s))%Z ->
  Forall (raises_expected (expected_exception (obj s))) before ->
  Forall (raises_expected (expected_exception (obj s))) after ->
  always_returns ok ->
  let s' := call_all env (before ++ ok :: after) s in
  state (obj s') = CLOSED /\
  failure_count (obj s') = Z.of_nat (length after).
Proof.
  intros Hst Hfc Hb Ha Hfb Hfa Hok s'. subst s'.
  rewrite call_all_app. cbn [call_all].
  destruct (closed_failures_below before s) as (Hst1 & Hfc1 & Hcfg1); auto; [lia|].
  set (s1 := call_all env before s) in *.
  destruct (Hok (world s1)) as (v & w' & Hrun).
  rewrite (call_success_not_open ok s1 v w') by (congruence || exact Hrun).
  cbn [snd]. set (s2 := mkState _ _ _).
  assert (Hs2 : obj s2 = set_failure_count 0 (obj s1)).
  { subst s2. cbn [obj]. unfold succeeded. rewrite Hst1. reflexivity. }
  destruct Hcfg1 as (Hn & Hth & Hrt & Hsth & Hee).
  destruct (closed_failures_below after s2) as (Hst2 & Hfc2 & _).
  - rewrite Hs2. exact Hst1.
  - rewrite Hs2. simpl. lia.
  - rewrite Hs2. simpl. rewrite <- Hee. exact Hfa.
  - split; [exact Hst2|]. rewrite Hfc2, Hs2. simpl. lia.
Qed.

(** X2 (recovery is decided by the clock at call time).  A call on an OPEN
    breaker invokes the wrapped function exactly when the first clock
    reading of the call is [recovery_timeout] or more past
    [last_failure_time]; and a trial whose function returns hands back its
    value and leaves the breaker CLOSED if one success suffices, HALF_OPEN
    with one success recorded otherwise. *)
Theorem X2_open_recovery {T} (f : Callee T) (s : State CircuitBreaker) (t : Q) :
  state (obj s) = OPEN ->
  last_failure_time (obj s) = Some t ->
  (count_calls ByBreaker (trace (snd (call env f s)))
     = S (count_calls ByBreaker (trace s))
   <-> recovery_timeout (obj s) <= clock env (ticks (world s)) - t) /\
  (recovery_timeout (obj s) <= clock env (ticks (world s)) - t ->
   forall v w', f (tick (world s)) = (Val v, w') ->
     fst (call env f s) = Val v /\
     success_count (obj (snd (call env f s))) = 1%Z /\
     state (obj (snd (call env f s)))
       = if (1 >=? success_threshold (obj s))%Z then CLOSED else HALF_OPEN).
Proof.
  intros Hst Hl.
  assert (Hadm : recovery_timeout (obj s) <= clock env (ticks (world s)) - t ->
                 call env f s =
                   guarded env f (mkState (admitted (obj s)) (tick (world s)) (trace s))).
  { intros Hle. rewrite call_unfold, (check_open_admits env s t Hst Hl Hle).
    reflexivity. }
  split; [split|].
  - intros Hcnt.
    destruct (Qlt_le_dec (clock env (ticks (world s)) - t) (recovery_timeout (obj s)))
      as [Hlt | Hle]; [|exact Hle].
    rewrite call_unfold, (check_open_rejects env s t Hst Hl Hlt) in Hcnt.
    cbn [snd trace] in Hcnt. lia.
  - intros Hle. rewrite (Hadm Hle).
    set (s1 := mkState _ _ _).
    destruct (f (world s1)) as [[v|e] w'] eqn:Hf.
    + rewrite (guarded_success env f s1 v w' Hf). reflexivity.
    + destruct (isinstance e (expected_exception (obj s1))) eqn:Hi.
      * rewrite (guarded_failure env f s1 e w' Hf Hi). reflexivity.
      * rewrite (guarded_other env f s1 e w' Hf Hi). reflexivity.
  - intros Hle v w' Hf. rewrite (Hadm Hle).
    rewrite (guarded_success env f _ v w') by exact Hf.
    cbn [fst snd obj]. unfold succeeded, admitted.
    cbn [state set_state set_success_count success_count success_threshold].
    destruct (0 + 1 >=? success_threshold (obj s))%Z eqn:E;
      change (0 + 1)%Z with 1%Z in E; rewrite E; auto.
Qed.

(** Trial successes that stay below the threshold are counted. *)
Lemma trial_successes_below {T} (fs : list (Callee T)) :
  forall s : State CircuitBreaker,
    state (obj s) = HALF_OPEN ->
    (success_count (obj s) + Z.of_nat (length fs) < success_threshold (obj s))%Z ->
    Forall always_returns fs ->
    state (obj (call_all env fs s)) = HALF_OPEN /\
    success_count (obj (call_all env fs s))
      = (success_count (obj s) + Z.of_nat (length fs))%Z /\
    success_threshold (obj (call_all env fs s)) = success_threshold (obj s).
Proof.
  induction fs as [|f fs IH]; intros s Hst Hlen Hall.
  - simpl. repeat split; auto; lia.
  - inversion Hall as [|? ? Hf Hrest]; subst.
    destruct (Hf (world s)) as (v & w' & Hrun).
    cbn [call_all].
    rewrite (call_success_not_open f s v w') by (congruence || exact Hrun).
    cbn [snd]. set (s1 := mkState _ _ _).
    assert (Hs1 : obj s1 = set_success_count (success_count (obj s) + 1) (obj s)).
    { subst s1. cbn [obj]. unfold succeeded. rewrite Hst.
      cbn [success_count set_success_count success_threshold].
      replace (success_count (obj s) + 1 >=? success_threshold (obj s))%Z with false;
        [reflexivity|].
      symmetry. apply Zgeb_false. cbn [length] in Hlen. lia. }
    destruct (IH s1) as (Hc & Hn & Hth).
    + rewrite Hs1. exact Hst.
    + rewrite Hs1. cbn [length] in Hlen. simpl. lia.
    + exact Hrest.
    + split; [exact Hc|]. split.
      * rewrite Hn, Hs1. cbn [length]. simpl. lia.
      * rewrite Hth, Hs1. reflexivity.
Qed.

(** X3 (closing after the trial).  From a HALF_OPEN breaker, consecutive
    successful calls that bring [success_count] up to [success_threshold]
    close the circuit and zero [failure_count]; one success fewer leaves it
    HALF_OPEN. *)
Theorem X3_half_open_closes {T} (fs : list (Callee T)) (last : Callee T)
    (s : State CircuitBreaker) :
  state (obj s) = HALF_OPEN ->
  (success_count (obj s) + Z.of_nat (length fs) + 1 = success_threshold (obj s))%Z ->
  Forall always_returns fs ->
  always_returns last ->
  state (obj (call_all env fs s)) = HALF_OPEN /\
  state (obj (call_all env (fs ++ [last]) s)) = CLOSED /\
  failure_count (obj (call_all env (fs ++ [last]) s)) = 0%Z.
Proof.
  intros Hst Hlen Hfs Hlast.
  destruct (trial_successes_below fs s) as (Hst1 & Hsc1 & Hth1); auto; [lia|].
  split; [exact Hst1|].
  rewrite call_all_app. cbn [call_all].
  set (s1 := call_all env fs s) in *.
  destruct (Hlast (world s1)) as (v & w' & Hrun).
  rewrite (call_success_not_open last s1 v w') by (congruence || exact Hrun).
  cbn [snd obj]. unfold succeeded. rewrite Hst1.
  cbn [success_count set_success_count success_threshold].
  replace (success_count (obj s1) + 1 >=? success_threshold (obj s1))%Z with true
    by (symmetry; apply Zgeb_true; lia).
  split; reflexivity.
Qed.

End BreakerTransitions.

Section BreakerDiscipline.
Variable env : Env.

(** X4 (one call, at most one invocation).  [call] either lets the call
    through and invokes the wrapped function exactly once, or - only on an
    OPEN breaker - raises without invoking it, and then the breaker is left
    exactly as it was: a rejection is never counted as a failure. *)
Theorem X4_call_invokes_at_most_once {T} (f : Callee T) (s : State CircuitBreaker) :
  (exists ev, trace (snd (call env f s)) = ev :: Called ByBreaker :: trace s /\
     (ev = Returned ByBreaker \/ exists e, ev = Raised ByBreaker e)) \/
  (state (obj s) = OPEN /\
   (exists e, fst (call env f s) = Exn e) /\
   obj (snd (call env f s)) = obj s /\
   trace (snd (call env f s)) = trace s).
Proof.
  rewrite call_unfold.
  assert (Hgo : forall s1, trace s1 = trace s ->
            exists ev, trace (snd (guarded env f s1)) = ev :: Called ByBreaker :: trace s /\
              (ev = Returned ByBreaker \/ exists e, ev = Raised ByBreaker e)).
  { intros s1 Htr. destruct (f (world s1)) as [[v|e] w'] eqn:Hf.
    - rewrite (guarded_success env f s1 v w' Hf). cbn [snd trace]. rewrite Htr. eauto.
    - destruct (isinstance e (expected_exception (obj s1))) eqn:Hi.
      + rewrite (guarded_failure env f s1 e w' Hf Hi). cbn [snd trace]. rewrite Htr. eauto.
      + rewrite (guarded_other env f s1 e w' Hf Hi). cbn [snd trace]. rewrite Htr. eauto. }
  destruct (state (obj s)) eqn:Hst.
  - rewrite check_not_open by congruence. left. apply Hgo. reflexivity.
  - destruct (last_failure_time (obj s)) as [t|] eqn:Hl.
    + destruct (Qlt_le_dec (clock env (ticks (world s)) - t) (recovery_timeout (obj s)))
        as [Hlt | Hle].
      * rewrite (check_open_rejects env s t Hst Hl Hlt). right.
        split; [reflexivity|]. split; [eexists; reflexivity|]. split; reflexivity.
      * rewrite (check_open_admits env s t Hst Hl Hle). left. apply Hgo. reflexivity.
    + right. unfold check, since. unfold_py. cbn [obj]. rewrite Hst, Hl. simpl.
      split; [reflexivity|]. split; [eexists; reflexivity|]. split; reflexivity.
  - rewrite check_not_open by congruence. left. apply Hgo. reflexivity.
Qed.

(** X5 (manual reset).  [reset] closes the circuit and zeroes both counters
    whatever the state was, keeping the configuration and
    [last_failure_time]; the next call is let through whatever the clock
    says, and if its function returns the breaker stays as [reset] left
    it. *)
Theorem X5_reset_reopens_traffic {T} (f : Callee T) (s : State CircuitBreaker) v w' :
  f (world s) = (Val v, w') ->
  let s1 := snd (reset s) in
  state (obj s1) = CLOSED /\
  failure_count (obj s1) = 0%Z /\ success_count (obj s1) = 0%Z /\
  last_failure_time (obj s1) = last_failure_time (obj s) /\
  same_config (obj s) (obj s1) /\
  call env f s1 =
    (Val v, mkState (obj s1) w' (Returned ByBreaker :: Called ByBreaker :: trace s)).
Proof.
  intros Hf s1. subst s1. unfold reset. unfold_py. cbn [snd obj].
  repeat split.
  rewrite call_unfold, check_not_open by (simpl; congruence).
  rewrite (guarded_success env f _ v w') by exact Hf. reflexivity.
Qed.

(** The counters of a breaker, by state. *)
Definition counted (b : CircuitBreaker) : Prop :=
  (0 <= failure_count b)%Z /\ (0 <= success_count b)%Z /\
  (state b = CLOSED ->
   failure_count b = 0%Z \/ (failure_count b < failure_threshold b)%Z) /\
  (state b = OPEN -> success_count b = 0%Z) /\
  (state b = HALF_OPEN ->
   success_count b = 0%Z \/ (success_count b < success_threshold b)%Z).

Lemma admitted_counted b : counted b -> counted (admitted b).
Proof.
  intros (H0 & H1 & Hc & Ho & Hh). unfold counted, admitted. simpl.
  repeat split; try lia; try discriminate; auto.
Qed.

Lemma succeeded_counted b : counted b -> counted (succeeded b).
Proof.
  intros (H0 & H1 & Hc & Ho & Hh). unfold counted, succeeded.
  destruct (state b) eqn:Hst; simpl.
  - rewrite Hst. repeat split; try lia; try discriminate; auto.
  - rewrite Hst. repeat split; try lia; try discriminate; auto.
  - destruct (success_count b + 1 >=? success_threshold b)%Z eqn:Hge; simpl.
    + repeat split; try lia; try discriminate; auto.
    + apply Zgeb_false in Hge. rewrite Hst.
      repeat split; try lia; try discriminate; auto.
Qed.

Lemma failed_counted now b : counted b -> counted (failed now b).
Proof.
  intros (H0 & H1 & Hc & Ho & Hh). unfold counted, failed. simpl.
  destruct (failure_count b + 1 >=? failure_threshold b)%Z eqn:Hge; simpl.
  - repeat split; try lia; try discriminate.
  - apply Zgeb_false in Hge. repeat split; try lia; auto.
Qed.

Lemma call_counted {T} (f : Callee T) (s : State CircuitBreaker) :
  counted (obj s) -> counted (obj (snd (call env f s))).
Proof.
  intros Hinv. rewrite call_unfold.
  destruct (check env s) as [[[]|e] s1] eqn:Hc.
  - assert (Hinv1 : counted (obj s1)).
    { destruct (check_obj env s) as [Heq | (Hst & _ & Heq)];
        rewrite Hc in Heq; simpl in Heq; rewrite Heq; auto using admitted_counted. }
    destruct (guarded_obj env f s1) as [Heq | [Heq | [now Heq]]]; rewrite Heq;
      auto using succeeded_counted, failed_counted.
  - simpl. destruct (check_obj env s) as [Heq | (_ & Hv & _)]; rewrite Hc in *;
      simpl in *; [rewrite Heq; exact Hinv | discriminate].
Qed.

End BreakerDiscipline.

(** X6 (the counters of a reachable breaker).  In every breaker reachable
    from the constructor through calls and resets, both counters are
    non-negative; a CLOSED breaker has a failure count of zero or below the
    threshold, so it never stays closed with the threshold reached; an OPEN
    breaker has no trial successes; and a HALF_OPEN breaker has fewer trial
    successes than the threshold, or none. *)
Theorem X6_reachable_counters (b : CircuitBreaker) :
  reachable b ->
  (0 <= failure_count b)%Z /\ (0 <= success_count b)%Z /\
  (state b = CLOSED ->
   failure_count b = 0%Z \/ (failure_count b < failure_threshold b)%Z) /\
  (state b = OPEN -> success_count b = 0%Z) /\
  (state b = HALF_OPEN ->
   success_count b = 0%Z \/ (success_count b < success_threshold b)%Z).
Proof.
  induction 1 as [nm ft rt st ee | env T f b w tr _ IH | b w tr _ IH].
  - unfold init. simpl. repeat split; try lia; try discriminate; auto.
  - apply (call_counted env f (mkState b w tr)). exact IH.
  - unfold reset. unfold_py. simpl. repeat split; try lia; try discriminate; auto.
Qed.

(** ** The Redis-backed breaker: constructor, statistics, reset, key space *)

Section RedisStore.
Variable env : Env.

(** X7 (joining a shared circuit).  When the state key is already in the
    store, [RedisCircuitBreaker.__init__] writes nothing: a process that
    builds the breaker later joins the circuit as it stands and does not
    close it or clear its counters. *)
Theorem X7_init_keeps_existing_state nm ft rt st ee prefix
    (s : State (gmap string rcb.RVal)) (v : rcb.RVal) :
  obj s !! rcb.state_key (redis_breaker nm ft rt st ee prefix) = Some v ->
  rcb.init nm ft rt st ee prefix s = (Val (redis_breaker nm ft rt st ee prefix), s).
Proof.
  intros Hk. unfold rcb.init, rcb.redis_exists. unfold_py. cbn [obj].
  fold (redis_breaker nm ft rt st ee prefix). rewrite Hk. cbn [negb].
  destruct s; reflexivity.
Qed.

Variable self : rcb.RedisCircuitBreaker.

Lemma int_or_zero_int z (s : State (gmap string rcb.RVal)) :
  rcb.int_or_zero (Some (rcb.RInt z)) s = (Val z, s).
Proof. reflexivity. Qed.

(** Reading the statistics of a store that holds the fields of [b]. *)
Lemma get_stats_stored b (s : State (gmap string rcb.RVal)) :
  stored self b (obj s) ->
  rcb.get_stats self s =
    (Val (rcb.mkStats (name b) (rcb.value (shared_state (state b)))
            (failure_count b) (success_count b) (last_failure_time b)), s).
Proof.
  intros Hs. unfold rcb.get_stats. unfold bind at 1.
  rewrite (get_state_stored self b) by exact Hs.
  unfold bind at 1, rcb._get_failures, rcb._get_successes.
  pose proof Hs as (Hnm & _ & _ & _ & _ & _ & Hfk & Hsk & _).
  unfold rcb.redis_get. unfold bind at 1 2, get_obj at 1, ret at 1.
  rewrite Hfk, int_or_zero_int.
  unfold bind at 1 2 3, get_obj at 1, ret at 1.
  rewrite Hsk, int_or_zero_int.
  unfold bind at 1.
  rewrite (get_last_failure_stored self b) by exact Hs.
  unfold ret. rewrite Hnm. reflexivity.
Qed.

(** X8 (missing keys read as a closed circuit).  On a store that holds none
    of the breaker's keys - never initialised, flushed or expired -
    [get_stats] reports a closed circuit with zero counters and no failure
    time, and [call] lets the call through: the function is invoked. *)
Theorem X8_missing_keys_are_closed {T} (f : Callee T)
    (s : State (gmap string rcb.RVal)) :
  obj s !! rcb.state_key self = None ->
  obj s !! rcb.failures_key self = None ->
  obj s !! rcb.successes_key self = None ->
  obj s !! rcb.last_failure_key self = None ->
  rcb.get_stats self s = (Val (rcb.mkStats (rcb.name self) "closed" 0 0 None), s) /\
  rcb.check self env s = (Val tt, s) /\
  count_calls ByBreaker (trace (snd (rcb.call self env f s)))
    = S (count_calls ByBreaker (trace s)).
Proof.
  intros Hst Hf Hsu Hl.
  assert (Hcheck : rcb.check self env s = (Val tt, s)).
  { unfold rcb.check, rcb._get_state, rcb.redis_get. unfold_py. cbn [obj].
    rewrite Hst. reflexivity. }
  split; [|split; [exact Hcheck|]].
  - unfold rcb.get_stats, rcb._get_state, rcb._get_failures, rcb._get_successes,
      rcb._get_last_failure_time, rcb.redis_get, rcb.int_or_zero.
    unfold_py. cbn [obj]. rewrite Hst, Hf, Hsu, Hl. reflexivity.
  - rewrite rcall_unfold, Hcheck.
    unfold rguarded, try_except, bind at 1, invoke, run_callee. cbn [obj world trace].
    destruct (f (world s)) as [[v|e] w'] eqn:Hrun; cbn [obj world trace].
    + unfold bind at 1.
      destruct (rcb.on_success self _) as [[[]|e] s1] eqn:Hos.
      * assert (Htr : trace s1 = Returned ByBreaker :: Called ByBreaker :: trace s).
        { revert Hos. unfold rcb.on_success, rcb._get_state, rcb.redis_get,
            rcb._reset_failures, rcb.redis_set. unfold_py. cbn [obj world trace].
          rewrite Hst. cbn [rcb.CircuitState_eqb]. intros [= <-]. reflexivity. }
        cbn [snd ret]. unfold ret. cbn [snd]. rewrite Htr. reflexivity.
      * exfalso. revert Hos. unfold rcb.on_success, rcb._get_state, rcb.redis_get,
          rcb._reset_failures, rcb.redis_set. unfold_py. cbn [obj world trace].
        rewrite Hst. cbn [rcb.CircuitState_eqb]. discriminate.
    + destruct (isinstance e (rcb.expected_exception self)); [|reflexivity].
      unfold rcb.on_failure, rcb._incr_failures, rcb.redis_incr,
        rcb._set_last_failure_time, rcb._reset_successes, rcb._set_state, rcb.redis_set.
      unfold_py. cbn [obj world trace]. rewrite Hf. cbn [obj world trace].
      destruct (1 >=? rcb.failure_threshold self)%Z; reflexivity.
Qed.

(** The Redis [reset] is the in-memory [reset] on the stored fields. *)
Lemma reset_stored b (s : State (gmap string rcb.RVal)) (s' : State CircuitBreaker) :
  distinct_keys self -> stored self b (obj s) -> obj s' = b ->
  fst (rcb.reset self s) = Val tt /\
  stored self (obj (snd (reset s'))) (obj (snd (rcb.reset self s))).
Proof.
  intros Hk Hs <-. unfold rcb.reset, rcb._set_state, rcb._reset_failures,
    rcb._reset_successes, rcb.redis_set, reset. unfold_py. cbn [fst snd obj].
  split; [reflexivity|].
  destruct Hk as (H1 & H2 & H3 & H4 & H5 & H6).
  destruct Hs as (? & ? & ? & ? & ? & ? & ? & ? & ?).
  unfold stored. simpl.
  repeat split; try assumption;
    repeat first [ rewrite lookup_insert_eq
                 | rewrite lookup_insert_ne by congruence ];
    try assumption; reflexivity.
Qed.

End RedisStore.

Section RedisOperations.
Variable env : Env.
Variable self : rcb.RedisCircuitBreaker.

(** What a client does with a breaker. *)
Inductive BreakerOp (T : Type) :=
| CallOp (f : Callee T)
| ResetOp.
Arguments CallOp {T} _.
Arguments ResetOp {T}.

Definition run_op_memory {T} (op : BreakerOp T) (s : State CircuitBreaker)
  : State CircuitBreaker :=
  match op with
  | CallOp f => snd (call env f s)
  | ResetOp => snd (reset s)
  end.

Definition run_op_redis {T} (op : BreakerOp T) (s : State (gmap string rcb.RVal))
  : State (gmap string rcb.RVal) :=
  match op with
  | CallOp f => snd (rcb.call self env f s)
  | ResetOp => snd (rcb.reset self s)
  end.

Lemma ops_simulate {T} (ops : list (BreakerOp T)) :
  distinct_keys self -> nonzero_clock env ->
  forall b db w tr,
    stored self b db -> timed b ->
    let mem := fold_left (fun s op => run_op_memory op s) ops (mkState b w tr) in
    let red := fold_left (fun s op => run_op_redis op s) ops (mkState db w tr) in
    world mem = world red /\ trace mem = trace red /\
    stored self (obj mem) (obj red).
Proof.
  intros Hk Hclk. induction ops as [|op ops IH]; intros b db w tr Hs Ht.
  - simpl. split; [reflexivity | split; [reflexivity | exact Hs]].
  - cbn [fold_left]. destruct op as [f|]; cbn [run_op_memory run_op_redis].
    + destruct (call_simulates env self f b db w tr Hk Hclk Hs Ht)
        as (r & b' & db' & w' & tr' & Hc & Hr & Hs' & Ht').
      rewrite Hc, Hr. cbn [snd]. apply IH; assumption.
    + destruct (reset_stored self b (mkState db w tr) (mkState b w tr) Hk Hs eq_refl)
        as (_ & Hs').
      assert (Ht' : timed (obj (snd (reset (mkState b w tr))))).
      { destruct Ht as [_ Hnz]. unfold reset. unfold_py. cbn [snd obj].
        split; [discriminate | exact Hnz]. }
      pose proof (IH _ _ w tr Hs' Ht') as IH'.
      exact IH'.
Qed.

End RedisOperations.

Arguments CallOp {T} _.
Arguments ResetOp {T}.

(** X9 (the statistics mirror the in-memory breaker).  Start the Redis
    breaker on an empty store and the in-memory breaker with the same
    configuration, and put both through the same calls and resets at the
    same clock readings, none of them exactly zero: then [get_stats] reports
    the name, state, failure count, success count and last failure time of
    the in-memory breaker. *)
Theorem X9_stats_mirror_memory env {T} (ops : list (BreakerOp T))
    nm ft rt st ee prefix w tr :
  nonzero_clock env ->
  let self := redis_breaker nm ft rt st ee prefix in
  exists db,
    rcb.init nm ft rt st ee prefix (mkState ∅ w tr) = (Val self, mkState db w tr) /\
    let mem := fold_left (fun s op => run_op_memory env op s) ops
                 (mkState (cb.init nm ft rt st ee) w tr) in
    let red := fold_left (fun s op => run_op_redis env self op s) ops
                 (mkState db w tr) in
    rcb.get_stats self red =
      (Val (rcb.mkStats nm (rcb.value (shared_state (state (obj mem))))
              (failure_count (obj mem)) (success_count (obj mem))
              (last_failure_time (obj mem))), red).
Proof.
  intros Hclk self.
  destruct (redis_init_stored nm ft rt st ee prefix w tr) as (db & Hinit & Hs).
  exists db. split; [exact Hinit|]. cbv zeta.
  destruct (ops_simulate env self ops (redis_breaker_keys nm ft rt st ee prefix) Hclk
              (cb.init nm ft rt st ee) db w tr Hs) as (_ & _ & Hs').
  { split; [discriminate | intros t [=]]. }
  rewrite (get_stats_stored self _ _ Hs').
  destruct Hs' as (Hnm & _). rewrite <- Hnm. reflexivity.
Qed.

(** *** Two circuits in one store *)

(** A string without a colon. *)
Fixpoint colon_free (s : string) : bool :=
  match s with
  | EmptyString => true
  | String c s' => negb (String.eqb (String c EmptyString) ":") && colon_free s'
  end.

Lemma colon_free_app_colon (a b : string) : colon_free (a ++ ":" ++ b) = false.
Proof.
  induction a as [|c a IH]; [reflexivity|].
  change (colon_free (String c a ++ ":" ++ b))
    with (negb (String.eqb (String c EmptyString) ":") && colon_free (a ++ ":" ++ b)).
  rewrite IH. apply andb_false_r.
Qed.

(** A key splits at its last colon in one way only. *)
Lemma split_at_last_colon (a b f g : string) :
  colon_free f = true -> colon_free g = true ->
  (a ++ ":" ++ f = b ++ ":" ++ g)%string -> a = b /\ f = g.
Proof.
  intros Hf Hg. revert b.
  induction a as [|c a IH]; intros [|d b] H.
  - injection H as H. auto.
  - injection H as _ H. change (f = b ++ ":" ++ g)%string in H. subst f. exfalso.
    exact (eq_true_false_abs _ Hf (colon_free_app_colon b g)).
  - injection H as _ H. change (a ++ ":" ++ f = g)%string in H. subst g. exfalso.
    exact (eq_true_false_abs _ Hg (colon_free_app_colon a f)).
  - injection H as H1 H. subst d. destruct (IH b H) as [-> ->]. auto.
Qed.

Section RedisKeySpace.
Variable env : Env.

(** The keys of a breaker. *)
Definition own_key (self : rcb.RedisCircuitBreaker) (k : string) : Prop :=
  k = rcb.state_key self \/ k = rcb.failures_key self \/
  k = rcb.last_failure_key self \/ k = rcb.successes_key self.

(** Breakers with one prefix and different names share no key. *)
Lemma keys_disjoint nmA nmB ftA rtA stA eeA ftB rtB stB eeB prefix k :
  nmA <> nmB ->
  own_key (redis_breaker nmA ftA rtA stA eeA prefix) k ->
  own_key (redis_breaker nmB ftB rtB stB eeB prefix) k -> False.
Proof.
  intros Hne HA HB. unfold own_key, redis_breaker in *. simpl in *.
  assert (Hsplit : forall f g,
             colon_free f = true -> colon_free g = true ->
             ((prefix ++ ":" ++ nmA) ++ ":" ++ f = (prefix ++ ":" ++ nmB) ++ ":" ++ g)%string ->
             False).
  { intros f g Hf Hg H. apply split_at_last_colon in H as [H _]; auto.
    apply String.app_inj in H. injection H as H. exact (Hne H). }
  destruct HA as [-> | [-> | [-> | ->]]], HB as [H | [H | [H | H]]];
    (eapply Hsplit; [| | exact H]; reflexivity).
Qed.

(** A computation that leaves the value under key [k] alone. *)
Definition untouched {A} (k : string) (m : M (gmap string rcb.RVal) A) : Prop :=
  forall s, obj (snd (m s)) !! k = obj s !! k.

Lemma untouched_bind {A B} k (m : M (gmap string rcb.RVal) A)
    (f : A -> M (gmap string rcb.RVal) B) :
  untouched k m -> (forall a, untouched k (f a)) -> untouched k (bind m f).
Proof.
  intros Hm Hf s. unfold bind. specialize (Hm s).
  destruct (m s) as [[a|e] s1]; cbn [snd] in *; [rewrite Hf|]; exact Hm.
Qed.

Lemma untouched_ret {A} k (a : A) : untouched k (ret a).
Proof. intros s. reflexivity. Qed.

Lemma untouched_raise {A} k e : untouched k (@raise (gmap string rcb.RVal) A e).
Proof. intros s. reflexivity. Qed.

Lemma untouched_get k k' : untouched k (rcb.redis_get k').
Proof. intros s. reflexivity. Qed.

Lemma untouched_set k k' v : k <> k' -> untouched k (rcb.redis_set k' v).
Proof.
  intros Hne s. unfold rcb.redis_set. unfold_py. cbn [snd obj].
  apply lookup_insert_ne. congruence.
Qed.

Lemma untouched_incr k k' : k <> k' -> untouched k (rcb.redis_incr k').
Proof.
  intros Hne s. unfold rcb.redis_incr. unfold_py. cbn [obj].
  destruct (obj s !! k') as [[| |]|]; cbn [snd obj]; try reflexivity;
    apply lookup_insert_ne; congruence.
Qed.

Lemma untouched_time k : untouched k (time_time env).
Proof. intros s. reflexivity. Qed.

Lemma untouched_try {A} k (body : M (gmap string rcb.RVal) A) clauses :
  untouched k body ->
  (forall o e h, clauses o e = Some h -> untouched k h) ->
  untouched k (try_except body clauses).
Proof.
  intros Hb Hc s. unfold try_except. specialize (Hb s).
  destruct (body s) as [[a|e] s1]; cbn [snd] in *; [exact Hb|].
  destruct (clauses (obj s1) e) as [h|] eqn:E; [|exact Hb].
  rewrite (Hc _ _ _ E). exact Hb.
Qed.

Lemma untouched_invoke {A} k (f : Callee A) :
  untouched k (invoke ByBreaker (run_callee f)).
Proof.
  intros s. unfold invoke, run_callee. cbn [obj world trace].
  destruct (f (world s)) as [[v|e] w']; reflexivity.
Qed.

Lemma untouched_get_state self k : untouched k (rcb._get_state self).
Proof.
  unfold rcb._get_state. apply untouched_bind; [apply untouched_get|].
  intros [[s| |]|]; try apply untouched_raise; try apply untouched_ret.
  destruct (rcb.of_value s); [apply untouched_ret | apply untouched_raise].
Qed.

Lemma untouched_get_last self k : untouched k (rcb._get_last_failure_time self).
Proof.
  unfold rcb._get_last_failure_time. apply untouched_bind; [apply untouched_get|].
  intros [v|]; [|apply untouched_ret].
  destruct (rcb.bytes_truthy v); [|apply untouched_ret].
  destruct v; first [apply untouched_ret | apply untouched_raise].
Qed.

(** A call writes the breaker's own keys only. *)
Lemma call_untouched {T} self (f : Callee T) k :
  ~ own_key self k -> untouched k (rcb.call self env f).
Proof.
  intros Hown.
  assert (H1 : k <> rcb.state_key self) by (intros ->; apply Hown; unfold own_key; auto).
  assert (H2 : k <> rcb.failures_key self) by (intros ->; apply Hown; unfold own_key; auto).
  assert (H3 : k <> rcb.last_failure_key self) by (intros ->; apply Hown; unfold own_key; auto).
  assert (H4 : k <> rcb.successes_key self) by (intros ->; apply Hown; unfold own_key; auto).
  unfold rcb.call. apply untouched_bind.
  - unfold rcb.check. apply untouched_bind; [apply untouched_get_state|]. intros st.
    destruct (rcb.CircuitState_eqb st rcb.OPEN); [|apply untouched_ret].
    apply untouched_bind; [apply untouched_get_last|]. intros lf.
    apply untouched_bind.
    + destruct lf as [t|]; [|apply untouched_ret].
      destruct (rcb.float_truthy t); [|apply untouched_ret].
      apply untouched_bind; [apply untouched_time | intros; apply untouched_ret].
    + intros [|].
      * apply untouched_bind; [apply untouched_set; exact H1 | intros _].
        apply untouched_set. exact H4.
      * apply untouched_bind; [|intros; apply untouched_raise].
        destruct lf as [t|]; [|apply untouched_ret].
        destruct (rcb.float_truthy t); [|apply untouched_ret].
        apply untouched_bind; [apply untouched_time | intros; apply untouched_ret].
  - intros _. apply untouched_try.
    + apply untouched_bind; [apply untouched_invoke | intros result].
      apply untouched_bind; [|intros; apply untouched_ret].
      unfold rcb.on_success. apply untouched_bind; [apply untouched_get_state|].
      intros st. destruct (rcb.CircuitState_eqb st rcb.HALF_OPEN).
      * apply untouched_bind; [apply untouched_incr; exact H4 | intros n].
        destruct (n >=? rcb.success_threshold self)%Z; [|apply untouched_ret].
        apply untouched_bind; [apply untouched_set; exact H1 | intros _].
        apply untouched_set. exact H2.
      * apply untouched_set. exact H2.
    + intros o e h Hh.
      destruct (isinstance e (rcb.expected_exception self)); [|discriminate].
      injection Hh as <-. unfold rcb.on_failure.
      apply untouched_bind; [apply untouched_incr; exact H2 | intros n].
      apply untouched_bind; [apply untouched_time | intros now].
      apply untouched_bind; [apply untouched_set; exact H3 | intros _].
      apply untouched_bind; [apply untouched_set; exact H4 | intros _].
      apply untouched_bind; [|intros; apply untouched_raise].
      destruct (n >=? rcb.failure_threshold self)%Z;
        [apply untouched_set; exact H1 | apply untouched_ret].
Qed.

(** The statistics depend on the breaker's own keys only. *)
Lemma get_stats_own_keys self (s1 s2 : State (gmap string rcb.RVal)) :
  (forall k, own_key self k -> obj s1 !! k = obj s2 !! k) ->
  fst (rcb.get_stats self s1) = fst (rcb.get_stats self s2).
Proof.
  intros Heq.
  assert (E1 : obj s1 !! rcb.state_key self = obj s2 !! rcb.state_key self)
    by (apply Heq; unfold own_key; auto).
  assert (E2 : obj s1 !! rcb.failures_key self = obj s2 !! rcb.failures_key self)
    by (apply Heq; unfold own_key; auto).
  assert (E3 : obj s1 !! rcb.last_failure_key self = obj s2 !! rcb.last_failure_key self)
    by (apply Heq; unfold own_key; auto).
  assert (E4 : obj s1 !! rcb.successes_key self = obj s2 !! rcb.successes_key self)
    by (apply Heq; unfold own_key; auto).
  unfold rcb.get_stats, rcb._get_state, rcb._get_failures, rcb._get_successes,
    rcb._get_last_failure_time, rcb.redis_get, rcb.int_or_zero.
  unfold_py.
  repeat (cbn [fst snd obj];
          first
            [ rewrite E1 | rewrite E2 | rewrite E3 | rewrite E4
            | match goal with
              | |- context [match ?x with _ => _ end] =>
                  match x with
                  | _ !! _ => destruct x
                  | rcb.of_value _ => destruct x
                  | rcb.bytes_truthy _ => destruct x
                  | _ => is_var x; destruct x
                  end
              end ]);
    reflexivity.
Qed.

(** X10 (circuits with different names do not interfere).  Two Redis
    breakers built with the same key prefix and different names share no
    key, and a call on one of them, whatever it does, leaves the statistics
    of the other as they were. *)
Theorem X10_named_circuits_are_isolated {T} (f : Callee T)
    nmA nmB ftA rtA stA eeA ftB rtB stB eeB prefix
    (s : State (gmap string rcb.RVal)) :
  nmA <> nmB ->
  let A := redis_breaker nmA ftA rtA stA eeA prefix in
  let B := redis_breaker nmB ftB rtB stB eeB prefix in
  (forall k, own_key A k -> own_key B k -> False) /\
  fst (rcb.get_stats B (snd (rcb.call A env f s))) = fst (rcb.get_stats B s).
Proof.
  intros Hne A B. split.
  - intros k. apply keys_disjoint. exact Hne.
  - apply get_stats_own_keys. intros k Hk.
    apply call_untouched. intros HA.
    exact (keys_disjoint nmA nmB ftA rtA stA eeA ftB rtB stB eeB prefix k Hne HA Hk).
Qed.

End RedisKeySpace.

(** ** The retry wrapper: outcomes and bounds *)

(** The time slept, added up over a trace. *)
Fixpoint slept_total (tr : list Event) : Q :=
  match tr with
  | [] => 0
  | Slept d :: tr' => d + slept_total tr'
  | _ :: tr' => slept_total tr'
  end.

(** A wrapped function with a state of its own: what an invocation returns
    or raises, and the state it leaves, depend on that state only. *)
Definition stateful {O T} (step : O -> Res T * O) : M O T :=
  fun s => let (r, o') := step (obj s) in (r, mkState o' (world s) (trace s)).

Section RetryOutcomes.
Import retry.
Variable env : Env.
Variable cfg : Config.

(** The state after [k] invocations in a row that raise retryable
    exceptions, if the first [k] invocations do so. *)
Fixpoint fails_for {O T} (step : O -> Res T * O) (k : nat) (o : O) : option O :=
  match k with
  | O => Some o
  | S k' =>
      match step o with
      | (Exn e, o') =>
          if isinstance_any e (retryable_exceptions cfg) then fails_for step k' o'
          else None
      | (Val _, _) => None
      end
  end.

(** An outcome that ends the loop: a value, or an exception that is not
    retryable. *)
Definition final {T} (r : Res T) : Prop :=
  match r with
  | Val _ => True
  | Exn e => isinstance_any e (retryable_exceptions cfg) = false
  end.

Lemma invoke_stateful {O T} (step : O -> Res T * O) (s : State O) r o' :
  step (obj s) = (r, o') ->
  invoke ByRetry (stateful step) s =
    (r, mkState o' (world s)
          (match r with
           | Val _ => Returned ByRetry
           | Exn e => Raised ByRetry e
           end :: Called ByRetry :: trace s)).
Proof.
  intros Hstep. unfold invoke, stateful. cbn [obj world trace]. rewrite Hstep.
  destruct r; reflexivity.
Qed.

Lemma attempts_final {O T} (step : O -> Res T * O) (s : State O)
    remaining attempt last r o' :
  step (obj s) = (r, o') -> final r ->
  attempts env cfg (stateful step) (S remaining) attempt last s =
    (r, mkState o' (world s)
          (match r with
           | Val _ => Returned ByRetry
           | Exn e => Raised ByRetry e
           end :: Called ByRetry :: trace s)).
Proof.
  intros Hstep Hfin. cbn [attempts]. unfold try_except.
  rewrite (invoke_stateful step s r o' Hstep).
  destruct r as [v|e]; [reflexivity|].
  cbn [final] in Hfin. rewrite Hfin.
  destruct (isinstance e Exception); reflexivity.
Qed.

Lemma attempts_retry {O T} (step : O -> Res T * O) (s : State O)
    remaining attempt last e o1 :
  step (obj s) = (Exn e, o1) ->
  isinstance_any e (retryable_exceptions cfg) = true ->
  Z.of_nat attempt <> max_retries cfg ->
  power_fits cfg attempt ->
  0 <= pause_delay env cfg attempt (world s) ->
  pause_delay env cfg attempt (world s) <= sleep_limit ->
  attempts env cfg (stateful step) (S remaining) attempt last s =
    attempts env cfg (stateful step) remaining (S attempt) (Some e)
      (mkState o1 (pause_world cfg (world s))
         (Slept (pause_delay env cfg attempt (world s))
            :: Raised ByRetry e :: Called ByRetry :: trace s)).
Proof.
  intros Hstep Hre Hn Hp H0 Hl. cbn [attempts]. unfold try_except.
  rewrite (invoke_stateful step s (Exn e) o1 Hstep). cbn [obj]. rewrite Hre.
  apply Z.eqb_neq in Hn. rewrite Hn.
  unfold bind at 1. rewrite pause_ok by assumption. reflexivity.
Qed.

Lemma attempts_recover {O T} (step : O -> Res T * O) r o' :
  final r -> delays_nonneg cfg -> sleeps_fit cfg -> unit_interval env ->
  forall (k remaining attempt : nat) (last : option Exc) (s : State O) o_k,
    fails_for step k (obj s) = Some o_k ->
    step o_k = (r, o') ->
    (Z.of_nat attempt + Z.of_nat k <= max_retries cfg)%Z ->
    (forall i, (attempt <= i < attempt + k)%nat -> power_fits cfg i) ->
    (k <= remaining)%nat ->
    let res := attempts env cfg (stateful step) (S remaining) attempt last s in
    fst res = r /\ obj (snd res) = o' /\
    count_calls ByRetry (trace (snd res))
      = (count_calls ByRetry (trace s) + k + 1)%nat /\
    count_sleeps (trace (snd res)) = (count_sleeps (trace s) + k)%nat.
Proof.
  intros Hfin Hd Hsl Hu. unfold sleeps_fit in Hsl. induction k as [|k IH];
    intros remaining attempt last s o_k Hk Hstep Hn Hpow Hrem res; subst res.
  - cbn [fails_for] in Hk. injection Hk as <-.
    rewrite (attempts_final step s remaining attempt last r o' Hstep Hfin).
    cbn [fst snd obj trace]. destruct r; cbn [count_calls count_sleeps];
      repeat split; lia.
  - cbn [fails_for] in Hk.
    destruct (step (obj s)) as [[v|e] o1] eqn:Hs1; [discriminate|].
    destruct (isinstance_any e (retryable_exceptions cfg)) eqn:Hre; [|discriminate].
    destruct remaining as [|remaining]; [lia|].
    pose proof (pause_delay_le env cfg attempt (world s) Hd Hu) as [_ Hle].
    rewrite (attempts_retry step s (S remaining) attempt last e o1 Hs1 Hre)
      by (try apply pause_delay_nonneg; auto; try lia; try lra; apply Hpow; lia).
    match goal with |- context [attempts _ _ _ _ _ _ ?s2] =>
      destruct (IH remaining (S attempt) (Some e) s2 o_k) as (Hr & Ho & Hc & Hsl');
        [exact Hk | exact Hstep | lia | intros i Hi; apply Hpow; lia | lia |]
    end.
    split; [exact Hr|]. split; [exact Ho|].
    split; [etransitivity; [exact Hc|] | etransitivity; [exact Hsl'|]];
      cbn [trace count_calls count_sleeps]; lia.
Qed.

(** X11 (retrying until an outcome that is final).  When the first [k]
    invocations raise retryable exceptions, [k <= max_retries], and the next
    invocation returns a value or raises an exception that is not retryable,
    the wrapper ends with that outcome after exactly [k + 1] invocations and
    [k] sleeps, and the function's state is the one its last invocation
    left.  The pauses in between complete: the configured delays and base
    are non-negative, [max_delay] is within the range of [time.sleep],
    [exponential_base ** i] is a float for every [i < k], and
    [random.random()] is in the unit interval. *)
Theorem X11_retry_until_final {O T} (step : O -> Res T * O) (k : nat)
    (s : State O) (o_k o' : O) (r : Res T) :
  fails_for step k (obj s) = Some o_k ->
  step o_k = (r, o') ->
  final r ->
  (Z.of_nat k <= max_retries cfg)%Z ->
  delays_nonneg cfg ->
  sleeps_fit cfg ->
  (forall i, (i < k)%nat -> power_fits cfg i) ->
  unit_interval env ->
  let res := wrapper env cfg (stateful step) s in
  fst res = r /\ obj (snd res) = o' /\
  count_calls ByRetry (trace (snd res))
    = (count_calls ByRetry (trace s) + k + 1)%nat /\
  count_sleeps (trace (snd res)) = (count_sleeps (trace s) + k)%nat.
Proof.
  intros Hk Hstep Hfin Hn Hd Hsl Hpow Hu. unfold wrapper.
  replace (Z.to_nat (max_retries cfg + 1)) with (S (Z.to_nat (max_retries cfg))) by lia.
  apply (attempts_recover step r o' Hfin Hd Hsl Hu k _ 0%nat None s o_k Hk Hstep);
    [lia | intros i Hi; apply Hpow; lia | lia].
Qed.

(** What [pause] adds to a trace: no invocation and at most one sleep. *)
Lemma pause_counts {O} (attempt : nat) (s : State O) :
  let s' := snd (pause env cfg attempt s) in
  count_calls ByRetry (trace s') = count_calls ByRetry (trace s) /\
  (count_sleeps (trace s') <= count_sleeps (trace s) + 1)%nat.
Proof.
  unfold pause, backoff, float_pow, jittered, time_sleep. unfold_py. cbv zeta.
  repeat (cbn [fst snd obj world trace];
          match goal with
          | |- context [if ?c then _ else _] => destruct c
          end);
    cbn [fst snd obj world trace count_calls count_sleeps]; split; lia.
Qed.

Lemma invoke_counts {O T} (f : Callee T) (s : State O) :
  let s' := snd (invoke ByRetry (run_callee f) s) in
  count_calls ByRetry (trace s') = S (count_calls ByRetry (trace s)) /\
  count_sleeps (trace s') = count_sleeps (trace s).
Proof.
  unfold invoke, run_callee. cbn [obj world trace].
  destruct (f (world s)) as [[v|e] w']; cbn [snd trace count_calls count_sleeps];
    split; lia.
Qed.

Lemma attempts_bounded {O T} (f : Callee T) :
  forall (remaining attempt : nat) (last : option Exc) (s s' : State O),
    (Z.of_nat attempt + Z.of_nat remaining = max_retries cfg + 1)%Z ->
    s' = snd (attempts env cfg (run_callee f) remaining attempt last s) ->
    (count_calls ByRetry (trace s') <= count_calls ByRetry (trace s) + remaining)%nat /\
    (count_sleeps (trace s') <= count_sleeps (trace s) + (remaining - 1))%nat.
Proof.
  induction remaining as [|remaining IH]; intros attempt last s s' Hn.
  - cbn [attempts]. destruct last; cbn; intros ->; split; lia.
  - cbn [attempts]. unfold try_except.
    destruct (invoke_counts f s) as [Hc Hs].
    destruct (invoke ByRetry (run_callee f) s) as [[v|e] s1]; cbn [snd] in *.
    + intros ->. split; lia.
    + destruct (isinstance_any e (retryable_exceptions cfg)).
      * destruct (Z.eqb_spec (Z.of_nat attempt) (max_retries cfg)) as [Heq|Hne].
        { cbn [raise_last raise snd]. intros ->. split; lia. }
        unfold bind.
        destruct (pause_counts attempt s1) as [Hpc Hps].
        destruct (pause env cfg attempt s1) as [[[]|e'] s2]; cbn [snd] in *.
        -- intros Hs'.
           destruct (IH (S attempt) (Some e) s2 s') as [Hc2 Hs2]; [lia|exact Hs'|].
           split; lia.
        -- intros ->. split; lia.
      * destruct (isinstance e Exception); cbn [raise snd]; intros ->; split; lia.
Qed.

(** X12 (the wrapper never exceeds its budget).  Whatever the wrapped
    function does and whatever the settings, a call of the wrapper invokes
    it at most [max_retries + 1] times and sleeps at most [max_retries]
    times; with a negative [max_retries] the function is never invoked and
    the wrapper raises the [TypeError] of [raise None]. *)
Theorem X12_retry_budget {O T} (f : Callee T) (s : State O) :
  let res := wrapper env cfg (run_callee f) s in
  (count_calls ByRetry (trace (snd res))
     <= count_calls ByRetry (trace s) + Z.to_nat (max_retries cfg + 1))%nat /\
  (count_sleeps (trace (snd res))
     <= count_sleeps (trace s) + Z.to_nat (max_retries cfg))%nat /\
  ((max_retries cfg < 0)%Z ->
   exists e, res = (Exn e, s) /\ exc_class e = TypeError).
Proof.
  intros res. subst res. unfold wrapper.
  destruct (Z.ltb_spec (max_retries cfg) 0) as [Hneg|Hpos].
  - replace (Z.to_nat (max_retries cfg + 1)) with 0%nat by lia.
    replace (Z.to_nat (max_retries cfg)) with 0%nat by lia.
    cbn [attempts raise_last raise snd]. repeat split; try lia.
    intros _. eexists. split; reflexivity.
  - destruct (attempts_bounded f (Z.to_nat (max_retries cfg + 1)) 0%nat None s _
                ltac:(lia) eq_refl) as [Hc Hs].
    repeat split; try lia.
Qed.

Lemma sleep_total {O} (d bound : Q) (s : State O) :
  0 <= bound -> (0 <= d -> d <= bound) ->
  slept_total (trace (snd (time_sleep d s))) <= slept_total (trace s) + bound.
Proof.
  intros Hb Hd. unfold time_sleep, emit, raise.
  destruct (Qle_bool (Qabs d) sleep_limit); [|cbn [snd]; lra].
  destruct (Qge_bool d 0) eqn:Hge; cbn [snd trace slept_total]; [|lra].
  apply Qge_bool_true in Hge. specialize (Hd Hge). lra.
Qed.

Lemma pause_total {O} (attempt : nat) (s : State O) :
  unit_interval env -> 0 <= max_delay cfg ->
  slept_total (trace (snd (pause env cfg attempt s)))
    <= slept_total (trace s) + max_delay cfg.
Proof.
  intros Hu Hm.
  destruct (Qlt_le_dec (Qabs (exponential_base cfg ^ Z.of_nat attempt)) float_overflow)
    as [Hfits|Hover].
  - rewrite pause_unfold by exact Hfits.
    apply (sleep_total _ _ (mkState (obj s) (pause_world cfg (world s)) (trace s)) Hm).
    intros H0. unfold pause_delay in *.
    assert (Hb : backoff_value cfg attempt <= max_delay cfg) by apply Q.le_min_r.
    destruct (jitter cfg); [|exact Hb].
    destruct (jitter_factor_range env (world s) Hu) as [Hl Hh]. nra.
  - unfold pause. unfold bind at 1.
    destruct (backoff_overflows cfg attempt s Hover) as (e & He & _).
    rewrite He. cbn [snd]. lra.
Qed.

Lemma invoke_total {O T} (f : Callee T) (s : State O) :
  slept_total (trace (snd (invoke ByRetry (run_callee f) s))) = slept_total (trace s).
Proof.
  unfold invoke, run_callee. cbn [obj world trace].
  destruct (f (world s)) as [[v|e] w']; reflexivity.
Qed.

Lemma attempts_total {O T} (f : Callee T) :
  unit_interval env -> 0 <= max_delay cfg ->
  forall (remaining attempt : nat) (last : option Exc) (s s' : State O),
    (Z.of_nat attempt + Z.of_nat remaining = max_retries cfg + 1)%Z ->
    s' = snd (attempts env cfg (run_callee f) remaining attempt last s) ->
    slept_total (trace s')
      <= slept_total (trace s) + inject_Z (Z.of_nat (remaining - 1)) * max_delay cfg.
Proof.
  intros Hu Hm.
  assert (Hk : forall n, 0 <= inject_Z (Z.of_nat n) * max_delay cfg).
  { intros n. apply Qmult_le_0_compat; [|exact Hm].
    change 0 with (inject_Z 0). rewrite <- Zle_Qle. lia. }
  induction remaining as [|remaining IH]; intros attempt last s s' Hn.
  - cbn [attempts]. destruct last; cbn [raise_last raise snd Nat.sub]; intros ->;
      change (inject_Z (Z.of_nat 0)) with 0; lra.
  - cbn [attempts]. unfold try_except.
    pose proof (invoke_total f s) as Ht.
    pose proof (Hk (S remaining - 1)%nat) as Hk1.
    destruct (invoke ByRetry (run_callee f) s) as [[v|e] s1]; cbn [snd] in *.
    + intros ->. rewrite Ht. lra.
    + destruct (isinstance_any e (retryable_exceptions cfg)).
      * destruct (Z.eqb_spec (Z.of_nat attempt) (max_retries cfg)) as [Heq|Hne].
        { cbn [raise_last raise snd]. intros ->. rewrite Ht. lra. }
        unfold bind.
        pose proof (pause_total attempt s1 Hu Hm) as Hp.
        destruct remaining as [|remaining]; [lia|].
        replace (S (S remaining) - 1)%nat with (S remaining) in * by lia.
        replace (S remaining - 1)%nat with remaining in IH by lia.
        assert (Hsucc : inject_Z (Z.of_nat (S remaining)) * max_delay cfg
                        == inject_Z (Z.of_nat remaining) * max_delay cfg + max_delay cfg).
        { rewrite Nat2Z.inj_succ. unfold Z.succ. rewrite inject_Z_plus.
          change (inject_Z 1) with 1. ring. }
        pose proof (Hk remaining) as Hk2.
        destruct (pause env cfg attempt s1) as [[[]|e'] s2]; cbn [snd] in *.
        -- intros Hs'.
           pose proof (IH (S attempt) (Some e) s2 s' ltac:(lia) Hs') as IH'.
           rewrite Ht in Hp. rewrite Hsucc. lra.
        -- intros ->. rewrite Ht in Hp. rewrite Hsucc. lra.
      * destruct (isinstance e Exception); cbn [raise snd]; intros ->; rewrite Ht; lra.
Qed.

(** X13 (worst-case time spent sleeping).  With [random.random()] in the
    unit interval and [max_delay >= 0], a call of the wrapper sleeps for at
    most [max_retries * max_delay] seconds in total, whatever the wrapped
    function does and whatever the other settings. *)
Theorem X13_retry_sleep_budget {O T} (f : Callee T) (s : State O) :
  unit_interval env ->
  0 <= max_delay cfg ->
  slept_total (trace (snd (wrapper env cfg (run_callee f) s)))
    <= slept_total (trace s)
       + inject_Z (Z.of_nat (Z.to_nat (max_retries cfg))) * max_delay cfg.
Proof.
  intros Hu Hm. unfold wrapper.
  destruct (Z.ltb_spec (max_retries cfg) 0) as [Hneg|Hpos].
  - replace (Z.to_nat (max_retries cfg + 1)) with 0%nat by lia.
    replace (Z.to_nat (max_retries cfg)) with 0%nat by lia.
    cbn [attempts raise_last raise snd]. change (inject_Z (Z.of_nat 0)) with 0. lra.
  - pose proof (attempts_total f Hu Hm (Z.to_nat (max_retries cfg + 1)) 0%nat None s _
                  ltac:(lia) eq_refl) as H.
    replace (Z.to_nat (max_retries cfg + 1) - 1)%nat
      with (Z.to_nat (max_retries cfg)) in H by lia.
    exact H.
Qed.

(** X14 (a negative delay replaces the error).  When an invocation raises
    a retryable exception, retries remain and the computed delay is
    negative, within the range of [time.sleep], the call of [time.sleep]
    raises [ValueError] inside the handler: the wrapper ends with that
    [ValueError] instead of the function's exception, after this one
    invocation and without sleeping. *)
Theorem X14_negative_delay_raises_value_error {O T} (f : Callee T) (s : State O)
    (e : Exc) (w' : World) :
  (1 <= max_retries cfg)%Z ->
  f (world s) = (Exn e, w') ->
  isinstance_any e (retryable_exceptions cfg) = true ->
  pause_delay env cfg 0 w' < 0 ->
  - sleep_limit <= pause_delay env cfg 0 w' ->
  let res := wrapper env cfg (run_callee f) s in
  (exists e', fst res = Exn e' /\ exc_class e' = ValueError) /\
  count_calls ByRetry (trace (snd res)) = S (count_calls ByRetry (trace s)) /\
  count_sleeps (trace (snd res)) = count_sleeps (trace s).
Proof.
  intros Hn Hrun Hre Hneg Hlim res. subst res. unfold wrapper.
  replace (Z.to_nat (max_retries cfg + 1)) with (S (Z.to_nat (max_retries cfg))) by lia.
  cbn [attempts]. unfold try_except.
  rewrite (invoke_raises f s e w' Hrun). cbn [obj]. rewrite Hre.
  replace (Z.of_nat 0 =? max_retries cfg)%Z with false
    by (symmetry; apply Z.eqb_neq; lia).
  unfold bind.
  match goal with |- context [pause env cfg 0 ?s1] =>
    destruct (pause_negative env cfg 0 s1 (power_fits_zero cfg) Hneg Hlim)
      as (e' & He & Hcls & Htr);
    destruct (pause env cfg 0 s1) as [[[]|e''] s2]
  end; cbn [fst snd] in *; [discriminate|].
  injection He as ->. rewrite Htr. cbn [trace count_calls count_sleeps].
  split; [eauto|]. split; reflexivity.
Qed.

End RetryOutcomes.

(** ** The rate limiter's decorator *)

Section LimiterFacts.
Import rate_limiter.
Variable env : Env.

(** X18 (a limiter below one token never admits).  [RateLimiter.__init__]
    without a capacity builds a bucket whose capacity is the rate.  On a
    bucket whose capacity is below one token - so with every [rate < 1] and
    the default capacity - the wrapper of [RateLimiter.__call__] never lets
    a call through, whatever the tokens and the clock: in non-blocking mode
    it raises [RateLimitExceeded], naming the function and reporting the
    rate, after one refill and without running the function, and the
    capacity stays as it was; in blocking mode without a timeout, with
    [rate > 0], it has not returned after any number of passes. *)
Theorem X18_sub_token_limiter_never_admits {T} (func_name : string) (f : Callee T)
    (tmo : option Q) (fuel : nat) (s : State TokenBucket) :
  capacity (obj s) < 1 ->
  (limited env (mkLimiter false tmo) (S fuel) func_name f s =
     (Exn (rate_limit_error func_name (rate (obj s))),
      mkState (refilled (clock env (S (ticks (world s)))) (obj s))
        (tick (tick (world s))) (trace s)) /\
   exc_class (rate_limit_error func_name (rate (obj s))) = RateLimitExceeded /\
   capacity (refilled (clock env (S (ticks (world s)))) (obj s)) = capacity (obj s)) /\
  (0 < rate (obj s) ->
   forall passes, fst (limited env (mkLimiter true None) passes func_name f s) = Val None) /\
  (forall {O} (r : Q) (blk : bool) (t : option Q) (s0 : State O),
      exists b,
        fst (limiter_init env r None blk t s0) = Val (b, mkLimiter blk t) /\
        capacity b = r /\ tokens b = r).
Proof.
  intros Hcap. split; [|split].
  - split; [|split; reflexivity].
    unfold limited, consume. unfold bind at 1 2, time_time at 1.
    cbn [consume_loop block timeout]. unfold bind at 1.
    rewrite pass_rejects by exact Hcap. reflexivity.
  - intros Hr passes. unfold limited, consume. unfold bind at 1 2, time_time at 1.
    cbn [block timeout].
    pose proof (loop_forever env 1 (clock env (ticks (world s))) passes
                  (mkState (obj s) (mkWorld (S (ticks (world s))) (draws (world s)))
                     (trace s)) Hcap Hr) as Hloop.
    cbn [obj world trace] in *.
    destruct (consume_loop env passes 1 true None _ _) as [[g|e] s1];
      cbn [fst] in Hloop; [|discriminate].
    injection Hloop as ->. reflexivity.
  - intros O r blk t s0. eexists. split; [reflexivity|]. split; reflexivity.
Qed.

End LimiterFacts.

(** ** The tool dispatcher *)

Section ToolFacts.
Import tools.
Variable env : Env.
Variable str : Exc -> string.
Variable web_search_body calculator_body save_note_body get_weather_body : Callee string.

Local Abbreviation run_tool :=
  (execute_tool env str web_search_body calculator_body save_note_body get_weather_body).
Local Abbreviation run_dispatch :=
  (dispatch env web_search_body calculator_body save_note_body get_weather_body).

(** The web-search breaker with the world and trace of the pair's state. *)
Definition web_search_view (s : State Breakers) : State CircuitBreaker :=
  mkState (web_search_breaker (obj s)) (world s) (trace s).

Definition weather_view (s : State Breakers) : State CircuitBreaker :=
  mkState (weather_breaker (obj s)) (world s) (trace s).

(** What the two [except] clauses make of an exception of an optional
    tool. *)
Definition degraded (tool_name : string) (e : Exc) : Res string :=
  if isinstance e CircuitBreakerError then Val (breaker_open_message str tool_name e)
  else if isinstance e Exception then Val (unavailable_message str tool_name e)
  else Exn e.

Lemma run_web_search (s : State Breakers) :
  let r := call env web_search_body (web_search_view s) in
  run_tool "web_search" s =
    (match fst r with
     | Val v => Val v
     | Exn e => degraded "web_search" e
     end,
     mkState (mkBreakers (obj (snd r)) (weather_breaker (obj s)))
       (world (snd r)) (trace (snd r))).
Proof.
  intros r. subst r. unfold execute_tool, dispatch, try_except, on_web_search, degraded.
  cbn [String.eqb Ascii.eqb Bool.eqb andb]. fold (web_search_view s).
  destruct (call env web_search_body (web_search_view s)) as [[v|e] s1];
    cbn [fst snd obj criticality]; [reflexivity|].
  destruct (isinstance e CircuitBreakerError); [reflexivity|].
  destruct (isinstance e Exception); reflexivity.
Qed.

Lemma run_get_weather (s : State Breakers) :
  let r := call env get_weather_body (weather_view s) in
  run_tool "get_weather" s =
    (match fst r with
     | Val v => Val v
     | Exn e => degraded "get_weather" e
     end,
     mkState (mkBreakers (web_search_breaker (obj s)) (obj (snd r)))
       (world (snd r)) (trace (snd r))).
Proof.
  intros r. subst r. unfold execute_tool, dispatch, try_except, on_weather, degraded.
  cbn [String.eqb Ascii.eqb Bool.eqb andb]. fold (weather_view s).
  destruct (call env get_weather_body (weather_view s)) as [[v|e] s1];
    cbn [fst snd obj criticality]; [reflexivity|].
  destruct (isinstance e CircuitBreakerError); [reflexivity|].
  destruct (isinstance e Exception); reflexivity.
Qed.

(** X19 (an open breaker degrades its own tool only).  While the
    web-search breaker is OPEN and not yet eligible for recovery,
    [execute_tool("web_search", ...)] returns the breaker-open message
    instead of raising, without running the search and leaving both
    breakers as they are; and [execute_tool("get_weather", ...)], whose
    breaker is not OPEN, still runs the weather function. *)
Theorem X19_open_breaker_degrades_its_tool (s : State Breakers) (t : Q) :
  state (web_search_breaker (obj s)) = OPEN ->
  last_failure_time (web_search_breaker (obj s)) = Some t ->
  clock env (ticks (world s)) - t < recovery_timeout (web_search_breaker (obj s)) ->
  state (weather_breaker (obj s)) <> OPEN ->
  (exists e,
     run_tool "web_search" s =
       (Val (breaker_open_message str "web_search" e),
        mkState (obj s) (tick (tick (world s))) (trace s)) /\
     exc_class e = CircuitBreakerError) /\
  count_calls ByBreaker (trace (snd (run_tool "get_weather" s)))
    = S (count_calls ByBreaker (trace s)) /\
  web_search_breaker (obj (snd (run_tool "get_weather" s))) = web_search_breaker (obj s).
Proof.
  intros Hst Hl Hlt Hw. split; [|split].
  - rewrite run_web_search. cbv zeta.
    rewrite call_unfold.
    rewrite (check_open_rejects env (web_search_view s) t Hst Hl Hlt).
    cbn [fst snd obj world trace web_search_view degraded].
    eexists. split;
      [unfold degraded; cbn [isinstance exc_class open_error];
       replace (issubclass CircuitBreakerError CircuitBreakerError) with true
         by reflexivity;
       destruct s as [[wb we] w tr]; reflexivity
      | reflexivity].
  - rewrite run_get_weather. cbv zeta. cbn [snd trace].
    rewrite call_unfold, check_not_open by exact Hw.
    unfold guarded, try_except, bind at 1, invoke, run_callee.
    cbn [obj world trace weather_view].
    destruct (get_weather_body (world s)) as [[v|e] w'].
    + unfold bind at 1.
      destruct (on_success _) as [[[]|e] s1] eqn:Hos; revert Hos;
        unfold on_success; unfold_py; cbn [obj world trace];
        repeat match goal with
               | |- context [match ?x with _ => _ end] => destruct x
               end; intros [= <-]; reflexivity.
    + cbn [obj].
      destruct (isinstance e (expected_exception (weather_breaker (obj s)))).
      * unfold on_failure. unfold_py. cbn [obj world trace].
        repeat match goal with
               | |- context [if ?x then _ else _] => destruct x
               end; reflexivity.
      * reflexivity.
  - rewrite run_get_weather. reflexivity.
Qed.

(** [k] web searches in a row, by a caller that takes what each returns. *)
Fixpoint searches (k : nat) (s : State Breakers) : State Breakers :=
  match k with
  | O => s
  | S k' => searches k' (snd (run_tool "web_search" s))
  end.

Lemma searches_view (k : nat) :
  forall s,
    web_search_view (searches k s)
      = call_all env (repeat web_search_body k) (web_search_view s) /\
    weather_breaker (obj (searches k s)) = weather_breaker (obj s).
Proof.
  induction k as [|k IH]; intros s; [split; reflexivity|].
  cbn [searches repeat call_all].
  destruct (IH (snd (run_tool "web_search" s))) as [Hv Hw].
  rewrite Hv, Hw. rewrite run_web_search. cbv zeta. cbn [snd obj weather_breaker].
  split; [|reflexivity]. f_equal.
  unfold web_search_view. cbn [obj world trace web_search_breaker].
  destruct (snd (call env web_search_body _)); reflexivity.
Qed.

(** An optional tool's outcome is a message whenever its function raises an
    [Exception]. *)
Lemma degraded_exception tool_name e :
  isinstance e Exception = true -> exists msg, degraded tool_name e = Val msg.
Proof.
  intros He. unfold degraded. rewrite He.
  destruct (isinstance e CircuitBreakerError); eauto.
Qed.

(** X20 (failing searches open the search breaker and are never raised).
    From the breakers as the module creates them, with a search function
    that raises exceptions of class [Exception]: every
    [execute_tool("web_search", ...)] returns a message instead of raising,
    whatever the breaker's state; after five of them the web-search breaker
    is OPEN and the weather breaker is still as created. *)
Theorem X20_failing_searches_trip_and_degrade (w : World) (tr : list Event) :
  raises_expected Exception web_search_body ->
  (forall s, exists msg, fst (run_tool "web_search" s) = Val msg) /\
  let s5 := searches 5 (mkState loaded w tr) in
  state (web_search_breaker (obj s5)) = OPEN /\
  weather_breaker (obj s5) = weather_breaker loaded.
Proof.
  intros Hbody. split.
  - intros s. rewrite run_web_search. cbv zeta. cbn [fst].
    rewrite call_unfold.
    destruct (check env (web_search_view s)) as [[[]|e] s1] eqn:Hcheck.
    + destruct (Hbody (world s1)) as (e & w' & Hrun & Hinst).
      destruct (isinstance e (expected_exception (obj s1))) eqn:Hexp.
      * rewrite (guarded_failure env web_search_body s1 e w' Hrun Hexp). cbn [fst].
        apply degraded_exception. exact Hinst.
      * rewrite (guarded_other env web_search_body s1 e w' Hrun Hexp). cbn [fst].
        apply degraded_exception. exact Hinst.
    + cbn [fst].
      assert (He : isinstance e Exception = true).
      { revert Hcheck. unfold check, since. unfold_py. cbn [obj world trace].
        destruct (CircuitState_eqb _ OPEN); [|discriminate].
        destruct (last_failure_time _) as [t|]; cbn [obj world trace];
          [|intros [= <- _]; reflexivity].
        destruct (Qge_bool _ _); [discriminate|].
        intros [= <- _]. reflexivity. }
      apply degraded_exception. exact He.
  - intros s5. subst s5.
    destruct (searches_view 5 (mkState loaded w tr)) as [Hv Hw].
    split; [|exact Hw].
    change (web_search_breaker (obj (searches 5 (mkState loaded w tr))))
      with (obj (web_search_view (searches 5 (mkState loaded w tr)))).
    rewrite Hv.
    destruct (closed_failures_trip env (repeat web_search_body 5)
                (web_search_view (mkState loaded w tr))) as (Ho & _).
    + discriminate.
    + reflexivity.
    + reflexivity.
    + repeat constructor; exact Hbody.
    + exact Ho.
Qed.

(** X21 (which failures reach the caller).  For a tool that is not listed
    as optional - the two critical tools and every unknown name -
    [execute_tool] returns or raises exactly what the dispatch does, so a
    failure reaches the caller, and an unknown name raises the
    ["Unknown tool"] exception; for an optional tool no exception of class
    [Exception] ever reaches the caller. *)
Theorem X21_failure_policy (tool_name : string) (s : State Breakers) :
  (criticality tool_name = Critical ->
   run_tool tool_name s = run_dispatch tool_name s) /\
  (criticality tool_name = Optional ->
   forall e, fst (run_tool tool_name s) = Exn e -> isinstance e Exception = false) /\
  (String.eqb tool_name "web_search" = false ->
   String.eqb tool_name "calculator" = false ->
   String.eqb tool_name "save_note" = false ->
   String.eqb tool_name "get_weather" = false ->
   run_tool tool_name s = (Exn (unknown_tool tool_name), s)).
Proof.
  split; [|split].
  - intros Hc. unfold execute_tool, try_except. rewrite Hc.
    destruct (run_dispatch tool_name s) as [[v|e] s1]; [reflexivity|].
    destruct (isinstance e CircuitBreakerError); [reflexivity|].
    destruct (isinstance e Exception); reflexivity.
  - intros Hc e. unfold execute_tool, try_except. rewrite Hc.
    destruct (run_dispatch tool_name s) as [[v|e0] s1]; [discriminate|].
    destruct (isinstance e0 CircuitBreakerError); [discriminate|].
    destruct (isinstance e0 Exception) eqn:He; [discriminate|].
    intros [= <-]. exact He.
  - intros H1 H2 H3 H4. unfold execute_tool, try_except, dispatch, criticality.
    rewrite H1, H2, H3, H4. reflexivity.
Qed.

End ToolFacts.

(** * Concrete runs of the further properties *)

Module MoreExamples.
Import Examples.

Lemma fine_always_returns : always_returns fine.
Proof. intros w. exists tt, w. reflexivity. Qed.

Lemma X1_witness :
  state (obj (call_all env_steady ([boom] ++ fine :: [boom]) fresh_breaker)) = CLOSED /\
  failure_count (obj (call_all env_steady ([boom] ++ fine :: [boom]) fresh_breaker)) = 1%Z.
Proof.
  apply (X1_success_clears_failures env_steady [boom] [boom] fine fresh_breaker).
  - reflexivity.
  - reflexivity.
  - simpl. lia.
  - simpl. lia.
  - repeat constructor. apply boom_raises_expected.
  - repeat constructor. apply boom_raises_expected.
  - apply fine_always_returns.
Defined.

(** The breaker [tripped] was opened at reading 0 with a one-second
    recovery timeout: a call at reading 1 is a trial. *)
Lemma X2_witness :
  fst (call env_steady fine (mkState tripped (mkWorld 1 0) [])) = Val tt /\
  state (obj (snd (call env_steady fine (mkState tripped (mkWorld 1 0) [])))) = HALF_OPEN.
Proof.
  destruct (X2_open_recovery env_steady fine (mkState tripped (mkWorld 1 0) []) 0)
    as [_ Htrial].
  - reflexivity.
  - reflexivity.
  - destruct (Htrial ltac:(vm_compute; discriminate) tt (mkWorld 2 0) eq_refl)
      as (Hv & _ & Hst).
    split; [exact Hv | exact Hst].
Defined.

Lemma X3_witness :
  state (obj (call_all env_steady ([] ++ [fine]) (mkState on_trial (mkWorld 2 0) [])))
    = CLOSED.
Proof.
  destruct (X3_half_open_closes env_steady [] fine (mkState on_trial (mkWorld 2 0) []))
    as (_ & Hclosed & _).
  - reflexivity.
  - reflexivity.
  - constructor.
  - apply fine_always_returns.
  - exact Hclosed.
Defined.

Lemma X5_witness :
  state (obj (snd (reset just_tripped))) = CLOSED /\
  fst (call env_steady fine (snd (reset just_tripped))) = Val tt.
Proof.
  destruct (X5_reset_reopens_traffic env_steady fine just_tripped tt (mkWorld 1 0) eq_refl)
    as (Hst & _ & _ & _ & _ & Hcall).
  split; [exact Hst|]. rewrite Hcall. reflexivity.
Defined.

Lemma X6_witness :
  (0 <= failure_count on_trial)%Z /\ (0 <= success_count on_trial)%Z.
Proof.
  destruct (X6_reachable_counters on_trial on_trial_reachable) as (Hf & Hs & _).
  split; [exact Hf | exact Hs].
Defined.

(** A store in which another process has left the circuit "api" open. *)
Definition open_store : State (gmap string rcb.RVal) :=
  mkState (<["cb:api:state" := rcb.RStr "open"]> ∅) w0 [].

Lemma X7_witness :
  rcb.init "api" 1 1 1 Exception "cb" open_store
    = (Val (redis_breaker "api" 1 1 1 Exception "cb"), open_store).
Proof.
  apply (X7_init_keeps_existing_state "api" 1 1 1 Exception "cb" open_store
           (rcb.RStr "open")).
  vm_compute. reflexivity.
Defined.

Definition empty_store : State (gmap string rcb.RVal) := mkState ∅ w0 [].

Lemma X8_witness :
  rcb.get_stats (redis_breaker "api" 1 1 1 Exception "cb") empty_store
    = (Val (rcb.mkStats "api" "closed" 0 0 None), empty_store).
Proof.
  destruct (X8_missing_keys_are_closed env_steady
              (redis_breaker "api" 1 1 1 Exception "cb") fine empty_store)
    as (Hstats & _).
  - reflexivity.
  - reflexivity.
  - reflexivity.
  - reflexivity.
  - exact Hstats.
Defined.

(** A clock that advances by one second at every reading, from 1. *)
Definition env_late : Env := mkEnv (fun i => inject_Z (Z.of_nat (S i))) (fun _ => 0).

Lemma env_late_nonzero : nonzero_clock env_late.
Proof.
  intros i H. unfold env_late, clock in H. unfold Qeq in H. simpl in H. lia.
Qed.

Lemma X9_witness :
  exists db red,
    rcb.init "api" 1 60 1 Exception "cb" empty_store
      = (Val (redis_breaker "api" 1 60 1 Exception "cb"), mkState db w0 []) /\
    red = fold_left
            (fun s op =>
               run_op_redis env_late (redis_breaker "api" 1 60 1 Exception "cb") op s)
            [CallOp boom; ResetOp] (mkState db w0 []) /\
    fst (rcb.get_stats (redis_breaker "api" 1 60 1 Exception "cb") red)
      = Val (rcb.mkStats "api" "closed" 0 0 (Some 1)).
Proof.
  destruct (X9_stats_mirror_memory env_late [CallOp boom; ResetOp]
              "api" 1 60 1 Exception "cb" w0 [] env_late_nonzero)
    as (db & Hinit & Hstats).
  exists db. eexists. split; [exact Hinit|]. split; [reflexivity|].
  cbv zeta in Hstats. rewrite Hstats. reflexivity.
Defined.

Lemma X10_witness :
  fst (rcb.get_stats (redis_breaker "search" 5 60 3 Exception "cb")
         (snd (rcb.call (redis_breaker "weather" 1 60 3 Exception "cb") env_late boom
                 empty_store)))
    = fst (rcb.get_stats (redis_breaker "search" 5 60 3 Exception "cb") empty_store).
Proof.
  destruct (X10_named_circuits_are_isolated env_late boom
              "weather" "search" 1 60 3 Exception 5 60 3 Exception "cb" empty_store)
    as [_ H].
  - discriminate.
  - exact H.
Defined.

(** A function that fails twice and then returns the number of earlier
    invocations. *)
Definition flaky (n : nat) : Res nat * nat :=
  if (n <? 2)%nat then (Exn boom_exc, S n) else (Val n, S n).

Lemma X11_witness :
  fst (retry.wrapper env_steady retry.defaults (stateful flaky) (mkState 0%nat w0 []))
    = Val 2%nat /\
  count_sleeps
    (trace (snd (retry.wrapper env_steady retry.defaults (stateful flaky)
                   (mkState 0%nat w0 [])))) = 2%nat.
Proof.
  destruct (X11_retry_until_final env_steady retry.defaults flaky 2
              (mkState 0%nat w0 []) 2%nat 3%nat (Val 2%nat))
    as (Hr & _ & _ & Hs).
  - reflexivity.
  - reflexivity.
  - exact I.
  - simpl. lia.
  - exact defaults_delays_nonneg.
  - unfold sleeps_fit. vm_compute. discriminate.
  - intros i Hi. destruct i as [|[|i]]; [vm_compute; reflexivity .. | lia].
  - exact env_steady_unit_interval.
  - split; [exact Hr | exact Hs].
Defined.

Definition no_retries : retry.Config := retry.mkConfig (-1) 1 60 2 true [Exception].

Lemma X12_witness :
  exists e,
    retry.wrapper env_steady no_retries (run_callee boom) (mkState tt w0 [])
      = (Exn e, mkState tt w0 []) /\
    exc_class e = TypeError.
Proof.
  destruct (X12_retry_budget env_steady no_retries boom (mkState tt w0 []))
    as (_ & _ & H).
  apply H. simpl. lia.
Defined.

Lemma X13_witness :
  slept_total
    (trace (snd (retry.wrapper env_steady retry.defaults (run_callee boom)
                   (mkState tt w0 []))))
    <= 0 + inject_Z 3 * 60.
Proof.
  apply (X13_retry_sleep_budget env_steady retry.defaults boom (mkState tt w0 [])).
  - exact env_steady_unit_interval.
  - simpl. lra.
Defined.

Definition negative_delay : retry.Config := retry.mkConfig 3 (-1) 60 2 false [Exception].

Lemma X14_witness :
  exists e,
    fst (retry.wrapper env_steady negative_delay (run_callee boom) (mkState tt w0 []))
      = Exn e /\
    exc_class e = ValueError.
Proof.
  destruct (X14_negative_delay_raises_value_error env_steady negative_delay boom
              (mkState tt w0 []) boom_exc w0)
    as (H & _).
  - simpl. lia.
  - reflexivity.
  - reflexivity.
  - vm_compute. reflexivity.
  - vm_compute. discriminate.
  - exact H.
Defined.

(** A delay of minus ten thousand million seconds is outside the range of
    [time.sleep], which then raises [OverflowError], not [ValueError]. *)
Definition out_of_range_delay : retry.Config :=
  retry.mkConfig 3 (- inject_Z (10 ^ 10)) 60 2 false [Exception].

Example out_of_range_delay_overflows :
  exists e,
    fst (retry.wrapper env_steady out_of_range_delay (run_callee boom)
           (mkState tt w0 [])) = Exn e /\
    exc_class e = OverflowError.
Proof. vm_compute. eexists. split; reflexivity. Qed.

(** The bucket of a limiter built with [rate = 1/2] and no capacity, and a
    function that must not be called. *)
Definition half_token_bucket : State rate_limiter.TokenBucket :=
  mkState (rate_limiter.mkBucket (1 # 2) (1 # 2) (1 # 2) 0) w0 [].

Definition never_called : Callee unit := fun w => (Val tt, w).

Lemma X18_witness :
  (exists e s',
     rate_limiter.limited env_steady (rate_limiter.mkLimiter false None) 1
       "never_called" never_called half_token_bucket = (Exn e, s') /\
     exc_class e = rate_limiter.RateLimitExceeded /\
     exc_num e = Some (1 # 2) /\ world s' = mkWorld 2 0) /\
  fst (rate_limiter.limited env_steady (rate_limiter.mkLimiter true None) 50
         "never_called" never_called half_token_bucket) = Val None.
Proof.
  destruct (X18_sub_token_limiter_never_admits env_steady "never_called" never_called
              None 0 half_token_bucket)
    as ((Hrej & Hcls & _) & Hblock & _).
  - reflexivity.
  - split.
    + do 2 eexists. split; [exact Hrej|]. split; [exact Hcls|]. split; reflexivity.
    + apply Hblock. reflexivity.
Defined.

(** The tools of a run: a search that fails and three tools that answer. *)
Definition failing_search : Callee string := fun w => (Exn boom_exc, w).
Definition answer : Callee string := fun w => (Val "ok"%string, w).
Definition no_text : Exc -> string := fun _ => ""%string.

Lemma failing_search_raises : raises_expected Exception failing_search.
Proof. intros w. exists boom_exc, w. split; reflexivity. Qed.

(** The breakers once the search breaker has been tripped at reading 0. *)
Definition search_down : State tools.Breakers :=
  mkState
    (tools.mkBreakers (obj just_tripped) (cb.init "weather" 5 60 3 Exception))
    (mkWorld 1 0) [].

Lemma X19_witness :
  (exists e,
     tools.execute_tool env_steady no_text failing_search answer answer answer
       "web_search" search_down
       = (Val (tools.breaker_open_message no_text "web_search" e),
          mkState (obj search_down) (mkWorld 3 0) [])) /\
  count_calls ByBreaker
    (trace (snd (tools.execute_tool env_steady no_text failing_search answer answer answer
                   "get_weather" search_down))) = 1%nat.
Proof.
  destruct (X19_open_breaker_degrades_its_tool env_steady no_text failing_search
              answer answer answer search_down 0)
    as ((e & He & _) & Hw & _).
  - reflexivity.
  - reflexivity.
  - vm_compute. reflexivity.
  - discriminate.
  - split; [exists e; exact He | exact Hw].
Defined.

Lemma X20_witness :
  state (tools.web_search_breaker
           (obj (searches env_steady no_text failing_search answer answer answer 5
                   (mkState tools.loaded w0 [])))) = OPEN.
Proof.
  destruct (X20_failing_searches_trip_and_degrade env_steady no_text failing_search
              answer answer answer w0 [] failing_search_raises)
    as (_ & Hopen & _).
  exact Hopen.
Defined.

Lemma X21_witness :
  tools.execute_tool env_steady no_text failing_search answer answer answer
    "calculator" (mkState tools.loaded w0 [])
    = tools.dispatch env_steady failing_search answer answer answer
        "calculator" (mkState tools.loaded w0 []).
Proof.
  destruct (X21_failure_policy env_steady no_text failing_search answer answer answer
              "calculator" (mkState tools.loaded w0 []))
    as (Hcrit & _).
  apply Hcrit. reflexivity.
Defined.

End MoreExamples.
